(** * Dynamic Time Warping: the engines of [traj_dist/pydist/dtw.py]

    A shallow embedding of [e_dtw], [e_extract_dtw_warping_path] and
    [s_dtw], and the properties of the cost matrix, the backpointer
    matrix and the reconstructed warping path.

    Numeric models.  The loops are embedded twice.

    In the first embedding a cell of the numpy matrix [C] is either a
    finite number or [float('inf')]: a finite value is an exact rational
    ([Qc], canonical fractions, so that [=] is numeric equality),
    addition is exact, and [+inf] is a constructor of its own.  The
    point-distance collaborators [eucl_dist] and [great_circle_distance]
    live in modules that are imported by the source file and are
    parameters of the development; here they return a finite number.
    This embedding carries the properties that compare cells with each
    other or read the backpointers off the comparisons: the tie-break,
    the recurrence, the bounds by a neighbour, symmetry, monotonicity.

    In the second embedding, the module [Float64], a cell is an IEEE 754
    binary64 number, as in the source: sums are rounded and overflow to
    [+inf], and a collaborator may return any float.  It carries the
    properties that depend on a sum being finite or on the value of a
    sum: the finiteness of the interior, the first column of the
    backpointer matrix, the path reconstructed from it, and the returned
    scalar as the sum of the distances along that path. *)

From Stdlib Require Import ZArith QArith Qcanon Qround Lia Lqa Floats.
From stdpp Require Import base numbers option list.

Local Open Scope Z_scope.
Local Open Scope nat_scope.

(** ** Costs: finite numbers and [float('inf')] *)

Inductive cost : Type :=
  | Fin (q : Qc)
  | Inf.

Global Instance cost_eq_dec : EqDecision cost.
Proof. solve_decision. Defined.

Global Instance cost_inhabited : Inhabited cost := populate Inf.

(** [a + b] on floats. *)
Definition cost_add (a b : cost) : cost :=
  match a, b with
  | Fin x, Fin y => Fin (x + y)%Qc
  | _, _ => Inf
  end.

(** [a < b] on floats. *)
Definition cost_ltb (a b : cost) : bool :=
  match a, b with
  | Fin x, Fin y => bool_decide (x < y)%Qc
  | Fin _, Inf => true
  | Inf, _ => false
  end.

(** The order the comparisons decide, as propositions. *)
Definition cost_lt (a b : cost) : Prop :=
  match a, b with
  | Fin x, Fin y => (x < y)%Qc
  | Fin _, Inf => True
  | Inf, _ => False
  end.

Definition cost_le (a b : cost) : Prop :=
  match a, b with
  | Fin x, Fin y => (x ≤ y)%Qc
  | _, Inf => True
  | Inf, Fin _ => False
  end.

Definition is_finite (c : cost) : Prop := ∃ q, c = Fin q.

(** ** [np.argmin] and the builtin [min] *)

(** [np.argmin] scans the array from the left, keeps the running minimum
    [mp] and its index [idx], and moves only when an element is strictly
    smaller: the first index of the minimum wins. *)
Fixpoint argmin_from (mp : cost) (idx i : nat) (l : list cost) : nat :=
  match l with
  | [] => idx
  | x :: l' =>
      if cost_ltb x mp then argmin_from x i (S i) l'
      else argmin_from mp idx (S i) l'
  end.

(** On the empty array numpy raises; [e_dtw] calls it on three elements. *)
Definition argmin (l : list cost) : nat :=
  match l with
  | [] => 0
  | x :: l' => argmin_from x 0 1 l'
  end.

(** The builtin [min(a, b, c)]: the first argument is kept unless a later
    one is strictly smaller. *)
Definition py_min3 (a b c : cost) : cost :=
  let m := a in
  let m := if cost_ltb b m then b else m in
  if cost_ltb c m then c else m.

(** ** Matrices: a numpy array or a list of lists, read and written by index *)

Abbreviation matrix A := (list (list A)) (only parsing).

(** [M[i, j]] and [M[i][j]].  The engines read and write inside the
    matrices only (the shapes are part of the loop invariant [filled_to]),
    where the default of the total lookup plays no part. *)
Definition mget {A} `{!Inhabited A} (M : matrix A) (i j : nat) : A :=
  (M !!! i) !!! j.

(** [M[i, j] = v] and [M[i][j] = v]. *)
Definition mset {A} (M : matrix A) (i j : nat) (v : A) : matrix A :=
  alter (λ row, <[j:=v]> row) i M.

(** [np.zeros((n, m))] *)
Definition zeros (n m : nat) : matrix cost := replicate n (replicate m (Fin 0%Qc)).

(** [C[1:, 0] = float('inf')] *)
Definition set_col0_inf (C : matrix cost) : matrix cost :=
  imap (λ i row, match i with 0 => row | S _ => <[0:=Inf]> row end) C.

(** [C[0, 1:] = float('inf')] *)
Definition set_row0_inf (C : matrix cost) : matrix cost :=
  alter (λ row, imap (λ j x, match j with 0 => x | S _ => Inf end) row) 0 C.

(** [C[1:, 1:]] *)
Definition interior (C : matrix cost) : matrix cost := drop 1 <$> drop 1 C.

(** ** Points and trajectories *)

Abbreviation point := (Qc * Qc)%type (only parsing).

Global Instance point_inhabited : Inhabited point := populate (0%Qc, 0%Qc).

(** A backpointer cell: [None] or a tuple of two Python integers. *)
Abbreviation backptr := (option (Z * Z)) (only parsing).

Record dtw_state : Type := DtwState {
  st_C : matrix cost;
  st_W : matrix backptr
}.

(** ** Python list indexing: negative indices count from the end *)

Definition py_index {A} (l : list A) (i : Z) : option A :=
  if (0 <=? i)%Z then l !! Z.to_nat i
  else if (- Z.of_nat (length l) <=? i)%Z
       then l !! Z.to_nat (Z.of_nat (length l) + i)
       else None.

Inductive py_exception : Type :=
  | IndexError
  | TypeError.

(** The outcome of a loop run with a bound on the number of times its
    condition is evaluated. *)
Inductive outcome (A : Type) : Type :=
  | Returns (a : A)
  | Raises (e : py_exception)
  | OutOfFuel.
Global Arguments Returns {A} a.
Global Arguments Raises {A} e.
Global Arguments OutOfFuel {A}.

Section Engines.

(** The collaborators. [eucl_dist] takes two points,
    [great_circle_distance] their four coordinates. *)
Variable eucl_dist : point → point → Qc.
Variable great_circle_distance : Qc → Qc → Qc → Qc → Qc.

(** *** [e_dtw] *)

(** The candidates [[C[i, j-1], C[i-1, j-1], C[i-1, j]]] and their
    positions [[(i,j-1), (i-1,j-1), (i-1,j)]]. *)
Definition candidates (C : matrix cost) (i j : nat) : list cost :=
  [mget C i (j - 1); mget C (i - 1) (j - 1); mget C (i - 1) j].

Definition candidate_cells (i j : nat) : list (nat * nat) :=
  [(i, j - 1); (i - 1, j - 1); (i - 1, j)].

(** The body of the inner loop. *)
Definition e_dtw_cell (t0 t1 : list point) (i j : nat) (st : dtw_state) : dtw_state :=
  let C := st_C st in
  let W := st_W st in
  let min_is_from_idx := argmin (candidates C i j) in
  let min_from_distance := candidates C i j !!! min_is_from_idx in
  let min_is_from := candidate_cells i j !!! min_is_from_idx in
  let C := mset C i j
             (cost_add (Fin (eucl_dist (t0 !!! (i - 1)) (t1 !!! (j - 1))))
                       min_from_distance) in
  let W :=
    if bool_decide (i = 1) && bool_decide (j = 1)
    then mset W (i - 1) (j - 1) None
    else mset W (i - 1) (j - 1)
           (Some (Z.of_nat (min_is_from.1) - 1, Z.of_nat (min_is_from.2) - 1)%Z) in
  DtwState C W.

(** [for j in np.arange(n1) + 1] *)
Definition e_dtw_row (t0 t1 : list point) (i : nat) (st : dtw_state) : dtw_state :=
  foldl (λ st j, e_dtw_cell t0 t1 i j st) st (seq 1 (length t1)).

(** The state before the loops. *)
Definition e_dtw_init (t0 t1 : list point) : dtw_state :=
  let n0 := length t0 in
  let n1 := length t1 in
  let C := zeros (n0 + 1) (n1 + 1) in
  let W := replicate n0 (replicate n1 (None : backptr)) in
  let C := set_col0_inf C in
  let C := set_row0_inf C in
  DtwState C W.

(** The state after [for i in np.arange(n0) + 1]. *)
Definition e_dtw_loop (t0 t1 : list point) : dtw_state :=
  foldl (λ st i, e_dtw_row t0 t1 i st) (e_dtw_init t0 t1) (seq 1 (length t0)).

Definition e_dtw (t0 t1 : list point) : cost * matrix cost * matrix backptr :=
  let st := e_dtw_loop t0 t1 in
  let dtw := mget (st_C st) (length t0) (length t1) in
  (dtw, interior (st_C st), st_W st).

(** *** [s_dtw] *)

Definition s_dtw_cell (t0 t1 : list point) (i j : nat) (C : matrix cost) : matrix cost :=
  mset C i j
    (cost_add
       (Fin (great_circle_distance (t0 !!! (i - 1)).1 (t0 !!! (i - 1)).2
                                   (t1 !!! (j - 1)).1 (t1 !!! (j - 1)).2))
       (py_min3 (mget C i (j - 1)) (mget C (i - 1) (j - 1)) (mget C (i - 1) j))).

Definition s_dtw_row (t0 t1 : list point) (i : nat) (C : matrix cost) : matrix cost :=
  foldl (λ C j, s_dtw_cell t0 t1 i j C) C (seq 1 (length t1)).

Definition s_dtw_init (t0 t1 : list point) : matrix cost :=
  set_row0_inf (set_col0_inf (zeros (length t0 + 1) (length t1 + 1))).

Definition s_dtw_loop (t0 t1 : list point) : matrix cost :=
  foldl (λ C i, s_dtw_row t0 t1 i C) (s_dtw_init t0 t1) (seq 1 (length t0)).

Definition s_dtw (t0 t1 : list point) : cost :=
  mget (s_dtw_loop t0 t1) (length t0) (length t1).

End Engines.

(** ** [e_extract_dtw_warping_path] *)

(** The [while idxs != (0,0)] loop. [fuel] bounds the number of times the
    condition is evaluated.  [idxs] is [None] when the cell just read held
    [None]: the condition is then true and subscripting [idxs] raises. *)
Fixpoint walk (fuel : nat) (W : matrix backptr) (idxs : backptr)
    (path : list (Z * Z)) : outcome (list (Z * Z)) :=
  match fuel with
  | 0 => OutOfFuel
  | S fuel' =>
      if bool_decide (idxs = Some (0, 0)%Z)
      then Returns (reverse (path ++ [(0, 0)%Z]))
      else
        match idxs with
        | None => Raises TypeError
        | Some (a, b) =>
            match py_index W a with
            | None => Raises IndexError
            | Some row =>
                match py_index row b with
                | None => Raises IndexError
                | Some next => walk fuel' W next (path ++ [(a, b)])
                end
            end
        end
  end.

Definition e_extract_dtw_warping_path (fuel : nat) (W : matrix backptr) :
    outcome (list (Z * Z)) :=
  match py_index W 0 with
  | None => Raises IndexError
  | Some row0 =>
      walk fuel W (Some (Z.of_nat (length W) - 1, Z.of_nat (length row0) - 1)%Z) []
  end.

(** ** Concrete collaborators used in the examples *)

Definition Qc_abs (x : Qc) : Qc := if bool_decide (x < 0)%Qc then (- x)%Qc else x.

(** The taxicab distance: a metric on the plane that coincides with the
    Euclidean distance on two points that share a coordinate. *)
Definition taxicab (p q : point) : Qc :=
  (Qc_abs (p.1 - q.1) + Qc_abs (p.2 - q.2))%Qc.

(** The Euclidean distance of two lattice points, rounded down; exact on
    Pythagorean offsets. *)
Definition lattice_dist (p q : point) : Qc :=
  Qc_of_Z (Z.sqrt ((Qfloor (p.1 - q.1)%Qc) ^ 2 + (Qfloor (p.2 - q.2)%Qc) ^ 2)).

Definition pt (x y : Z) : point := (Qc_of_Z x, Qc_of_Z y).

Definition coords (x1 y1 x2 y2 : Qc) : Qc := taxicab (x1, y1) (x2, y2).

(** * Specification vocabulary *)

(** [n] rows of [m] cells each. *)
Definition has_shape {A} (n m : nat) (M : matrix A) : Prop :=
  length M = n ∧ ∀ i row, M !! i = Some row → length row = m.

(** The cells of the matrix after the three initialisation statements. *)
Definition init_cell (i j : nat) : cost :=
  match i, j with
  | 0, 0 => Fin 0%Qc
  | 0, S _ | S _, 0 => Inf
  | S _, S _ => Fin 0%Qc
  end.

(** The boundary policy: row 0 and column 0 of the padded matrix. *)
Definition boundary (C : matrix cost) (n0 n1 : nat) : Prop :=
  mget C 0 0 = Fin 0%Qc ∧
  (∀ i, 1 ≤ i ≤ n0 → mget C i 0 = Inf) ∧
  (∀ j, 1 ≤ j ≤ n1 → mget C 0 j = Inf).

(** The backpointer written for cell [(i,j)] when candidate [k] is chosen. *)
Definition backptr_of (i j k : nat) : backptr :=
  if bool_decide (i = 1) && bool_decide (j = 1) then None
  else Some (Z.of_nat ((candidate_cells i j !!! k).1) - 1,
             Z.of_nat ((candidate_cells i j !!! k).2) - 1)%Z.

(** Cell [(i,j)] holds what the loop body computes from its three
    neighbours, in the cost matrix and in the backpointer matrix. *)
Definition cell_ok (eucl_dist : point → point → Qc) (t0 t1 : list point)
    (st : dtw_state) (i j : nat) : Prop :=
  let k := argmin (candidates (st_C st) i j) in
  mget (st_C st) i j =
    cost_add (Fin (eucl_dist (t0 !!! (i - 1)) (t1 !!! (j - 1))))
             (candidates (st_C st) i j !!! k) ∧
  mget (st_W st) (i - 1) (j - 1) = backptr_of i j k.

(** The state when the loops are about to run the body at [(i,j)]: the
    cells before it in row-major order are computed. *)
Definition filled_to (eucl_dist : point → point → Qc) (t0 t1 : list point)
    (i j : nat) (st : dtw_state) : Prop :=
  has_shape (length t0 + 1) (length t1 + 1) (st_C st) ∧
  has_shape (length t0) (length t1) (st_W st) ∧
  boundary (st_C st) (length t0) (length t1) ∧
  ∀ a b, 1 ≤ a ≤ length t0 → 1 ≤ b ≤ length t1 → a < i ∨ (a = i ∧ b < j) →
         cell_ok eucl_dist t0 t1 st a b.

(** The recurrence holds at every cell when the loops are over. *)
Definition filled (eucl_dist : point → point → Qc) (t0 t1 : list point)
    (st : dtw_state) : Prop :=
  filled_to eucl_dist t0 t1 (S (length t0)) 1 st.

(** A step back from cell [(i,j)] to its predecessor [(i',j')], both in
    trajectory indices: one of left, diagonal, up. *)
Definition unit_step_back (i j i' j' : nat) : Prop :=
  i' ≤ i ≤ i' + 1 ∧ j' ≤ j ≤ j' + 1 ∧ (i' ≠ i ∨ j' ≠ j).

(** A backpointer matrix of [n0] rows and [n1] columns whose cell [(0,0)]
    holds [None] and whose other cells hold a unit step back. *)
Definition wf_backptrs (n0 n1 : nat) (W : matrix backptr) : Prop :=
  has_shape n0 n1 W ∧
  ∀ i j, i < n0 → j < n1 →
    if decide (i = 0 ∧ j = 0) then mget W i j = None
    else ∃ i' j' : nat,
        mget W i j = Some (Z.of_nat i', Z.of_nat j') ∧ unit_step_back i j i' j'.

(** The step the claim asks of two consecutive path entries, and the same
    step walked backwards. *)
Definition forward_step (p q : Z * Z) : Prop :=
  (q.1 = p.1 ∨ q.1 = p.1 + 1)%Z ∧ (q.2 = p.2 ∨ q.2 = p.2 + 1)%Z ∧
  (q.1 ≠ p.1 ∨ q.2 ≠ p.2).

(** Every two neighbours of the list are related. *)
Definition consecutive {A} (R : A → A → Prop) (l : list A) : Prop :=
  ∀ k p q, l !! k = Some p → l !! S k = Some q → R p q.

(** The cells visited from [p] down to the origin, in the order of the
    visit. *)
Inductive descends : Z * Z → list (Z * Z) → Prop :=
  | descends_origin : descends (0, 0)%Z [(0, 0)%Z]
  | descends_step p q seg :
      p ≠ (0, 0)%Z → forward_step q p → descends q seg → descends p (p :: seg).

(** The two collaborators return the same number on the pairs of points
    the engines forward to them. *)
Definition agree_on_trajectories (eucl_dist : point → point → Qc)
    (great_circle_distance : Qc → Qc → Qc → Qc → Qc) (t0 t1 : list point) : Prop :=
  ∀ p q, p ∈ t0 → q ∈ t1 →
    eucl_dist p q = great_circle_distance p.1 p.2 q.1 q.2.

(** The diagonal [(0,0), (1,1), ..., (n-1,n-1)]. *)
Definition diagonal (n : nat) : list (Z * Z) :=
  (λ k, (Z.of_nat k, Z.of_nat k)) <$> seq 0 n.

(** The cumulative point-distance along a list of index pairs. *)
Definition path_cost (eucl_dist : point → point → Qc) (t0 t1 : list point)
    (path : list (Z * Z)) : Qc :=
  foldr (λ ab acc, (eucl_dist (t0 !!! Z.to_nat ab.1) (t1 !!! Z.to_nat ab.2) + acc)%Qc)
        0%Qc path.

(** A warping path to the pair [(a,b)]: it starts at [(0,0)], ends at
    [(a,b)] and moves by the three steps right, diagonal, down. *)
Definition warping_path (a b : Z) (path : list (Z * Z)) : Prop :=
  head path = Some (0, 0)%Z ∧ last path = Some (a, b) ∧
  consecutive forward_step path.

(** The recurrence of the padded cost matrix, on a function of the two
    indices: the boundary, and each interior cell from its three
    neighbours. *)
Definition dtw_recurrence (dist : point → point → Qc) (t0 t1 : list point)
    (n0 n1 : nat) (f : nat → nat → cost) : Prop :=
  f 0 0 = Fin 0%Qc ∧
  (∀ i, 1 ≤ i ≤ n0 → f i 0 = Inf) ∧
  (∀ j, 1 ≤ j ≤ n1 → f 0 j = Inf) ∧
  ∀ i j, i < n0 → j < n1 →
    f (S i) (S j) =
      cost_add (Fin (dist (t0 !!! i) (t1 !!! j)))
               (py_min3 (f (S i) j) (f i j) (f i (S j))).

(** The cells the loop of the reconstruction visits from cell [(i,j)] on a
    matrix [W]: each one is the backpointer of the one before. *)
Inductive follows (W : matrix backptr) : nat → nat → list (Z * Z) → Prop :=
  | follows_origin : follows W 0 0 [(0, 0)%Z]
  | follows_step i j i' j' seg :
      ¬ (i = 0 ∧ j = 0) →
      mget W i j = Some (Z.of_nat i', Z.of_nat j') →
      follows W i' j' seg →
      follows W i j ((Z.of_nat i, Z.of_nat j) :: seg).

(** A backpointer matrix whose cells, but [(0,0)], hold the indices of a
    cell of the matrix with a smaller sum of indices. *)
Definition decreasing_backptrs (n0 n1 : nat) (W : matrix backptr) : Prop :=
  has_shape n0 n1 W ∧
  ∀ i j, i < n0 → j < n1 → ¬ (i = 0 ∧ j = 0) →
    ∃ i' j' : nat,
      mget W i j = Some (Z.of_nat i', Z.of_nat j') ∧
      i' < n0 ∧ j' < n1 ∧ i' + j' < i + j.

(** The pairs the loop of the reconstruction appends from the pair [p] on
    any matrix [W], read with the indexing of Python lists: each one is
    found in the cell of the one before, and the last one is [(0,0)]. *)
Inductive links (W : matrix backptr) : Z * Z → list (Z * Z) → Prop :=
  | links_origin : links W (0, 0)%Z [(0, 0)%Z]
  | links_step a b row next seg :
      (a, b) ≠ (0, 0)%Z →
      py_index W a = Some row →
      py_index row b = Some (Some next) →
      links W next seg →
      links W (a, b) ((a, b) :: seg).

(** The pairs [(0,0), (0,1), ..., (0,n-1)]: one point against [n]. *)
Definition row_path (n : nat) : list (Z * Z) :=
  (λ k, (0%Z, Z.of_nat k)) <$> seq 0 n.

(** * The engines on binary64 floats

    The same three functions with the cells of [C] as IEEE 754 binary64
    numbers, the [float] of Python and the [float64] of numpy: sums are
    rounded and overflow to [+inf], comparisons with NaN are false.  The
    reconstruction has no arithmetic and is the function
    [e_extract_dtw_warping_path] above. *)

Module Float64.

Global Instance float_inhabited : Inhabited float := populate 0%float.

(** [np.argmin] on floats: the scan moves when [!(x >= mp)], and stops at
    the first NaN. *)
Fixpoint argmin_from (mp : float) (idx i : nat) (l : list float) : nat :=
  match l with
  | [] => idx
  | x :: l' =>
      if negb (mp <=? x)%float
      then if is_nan x then i else argmin_from x i (S i) l'
      else argmin_from mp idx (S i) l'
  end.

Definition argmin (l : list float) : nat :=
  match l with
  | [] => 0
  | x :: l' => if is_nan x then 0 else argmin_from x 0 1 l'
  end.

(** The builtin [min(a, b, c)]: a later argument replaces the current one
    when it is [<] it. *)
Definition py_min3 (a b c : float) : float :=
  let m := a in
  let m := if (b <? m)%float then b else m in
  if (c <? m)%float then c else m.

(** [np.zeros((n, m))] *)
Definition zeros (n m : nat) : matrix float := replicate n (replicate m 0%float).

(** [C[1:, 0] = float('inf')] *)
Definition set_col0_inf (C : matrix float) : matrix float :=
  imap (λ i row, match i with 0 => row | S _ => <[0:=infinity]> row end) C.

(** [C[0, 1:] = float('inf')] *)
Definition set_row0_inf (C : matrix float) : matrix float :=
  alter (λ row, imap (λ j x, match j with 0 => x | S _ => infinity end) row) 0 C.

(** [C[1:, 1:]] *)
Definition interior (C : matrix float) : matrix float := drop 1 <$> drop 1 C.

Record dtw_state : Type := DtwState {
  st_C : matrix float;
  st_W : matrix backptr
}.

Section Engines.

Variable eucl_dist : float * float → float * float → float.
Variable great_circle_distance : float → float → float → float → float.

Definition candidates (C : matrix float) (i j : nat) : list float :=
  [mget C i (j - 1); mget C (i - 1) (j - 1); mget C (i - 1) j].

(** The body of the inner loop of [e_dtw]. *)
Definition e_dtw_cell (t0 t1 : list (float * float)) (i j : nat) (st : dtw_state) :
    dtw_state :=
  let C := st_C st in
  let W := st_W st in
  let min_is_from_idx := argmin (candidates C i j) in
  let min_from_distance := candidates C i j !!! min_is_from_idx in
  let min_is_from := candidate_cells i j !!! min_is_from_idx in
  let C := mset C i j
             (PrimFloat.add (eucl_dist (t0 !!! (i - 1)) (t1 !!! (j - 1)))
                            min_from_distance) in
  let W :=
    if bool_decide (i = 1) && bool_decide (j = 1)
    then mset W (i - 1) (j - 1) None
    else mset W (i - 1) (j - 1)
           (Some (Z.of_nat (min_is_from.1) - 1, Z.of_nat (min_is_from.2) - 1)%Z) in
  DtwState C W.

Definition e_dtw_row (t0 t1 : list (float * float)) (i : nat) (st : dtw_state) :
    dtw_state :=
  foldl (λ st j, e_dtw_cell t0 t1 i j st) st (seq 1 (length t1)).

Definition e_dtw_init (t0 t1 : list (float * float)) : dtw_state :=
  let n0 := length t0 in
  let n1 := length t1 in
  let C := zeros (n0 + 1) (n1 + 1) in
  let W := replicate n0 (replicate n1 (None : backptr)) in
  let C := set_col0_inf C in
  let C := set_row0_inf C in
  DtwState C W.

Definition e_dtw_loop (t0 t1 : list (float * float)) : dtw_state :=
  foldl (λ st i, e_dtw_row t0 t1 i st) (e_dtw_init t0 t1) (seq 1 (length t0)).

Definition e_dtw (t0 t1 : list (float * float)) :
    float * matrix float * matrix backptr :=
  let st := e_dtw_loop t0 t1 in
  let dtw := mget (st_C st) (length t0) (length t1) in
  (dtw, interior (st_C st), st_W st).

(** The body of the inner loop of [s_dtw]. *)
Definition s_dtw_cell (t0 t1 : list (float * float)) (i j : nat) (C : matrix float) :
    matrix float :=
  mset C i j
    (PrimFloat.add
       (great_circle_distance (t0 !!! (i - 1)).1 (t0 !!! (i - 1)).2
                              (t1 !!! (j - 1)).1 (t1 !!! (j - 1)).2)
       (py_min3 (mget C i (j - 1)) (mget C (i - 1) (j - 1)) (mget C (i - 1) j))).

Definition s_dtw_row (t0 t1 : list (float * float)) (i : nat) (C : matrix float) :
    matrix float :=
  foldl (λ C j, s_dtw_cell t0 t1 i j C) C (seq 1 (length t1)).

Definition s_dtw_init (t0 t1 : list (float * float)) : matrix float :=
  set_row0_inf (set_col0_inf (zeros (length t0 + 1) (length t1 + 1))).

Definition s_dtw_loop (t0 t1 : list (float * float)) : matrix float :=
  foldl (λ C i, s_dtw_row t0 t1 i C) (s_dtw_init t0 t1) (seq 1 (length t0)).

Definition s_dtw (t0 t1 : list (float * float)) : float :=
  mget (s_dtw_loop t0 t1) (length t0) (length t1).

End Engines.

(** The taxicab distance on floats, the Euclidean distance of two points
    that share a coordinate. *)
Definition taxicab (p q : float * float) : float :=
  (abs (p.1 - q.1) + abs (p.2 - q.2))%float.

Definition coords (x1 y1 x2 y2 : float) : float := taxicab (x1, y1) (x2, y2).

(** The boundary policy, the cells after the three initialisation
    statements, and the two loop invariants, as for the exact model. *)
Definition init_cell (i j : nat) : float :=
  match i, j with
  | 0, 0 => 0%float
  | 0, S _ | S _, 0 => infinity
  | S _, S _ => 0%float
  end.

Definition boundary (C : matrix float) (n0 n1 : nat) : Prop :=
  mget C 0 0 = 0%float ∧
  (∀ i, 1 ≤ i ≤ n0 → mget C i 0 = infinity) ∧
  (∀ j, 1 ≤ j ≤ n1 → mget C 0 j = infinity).

Definition cell_ok (eucl_dist : float * float → float * float → float)
    (t0 t1 : list (float * float)) (st : dtw_state) (i j : nat) : Prop :=
  let k := argmin (candidates (st_C st) i j) in
  mget (st_C st) i j =
    PrimFloat.add (eucl_dist (t0 !!! (i - 1)) (t1 !!! (j - 1)))
                  (candidates (st_C st) i j !!! k) ∧
  mget (st_W st) (i - 1) (j - 1) = backptr_of i j k.

Definition filled_to (eucl_dist : float * float → float * float → float)
    (t0 t1 : list (float * float)) (i j : nat) (st : dtw_state) : Prop :=
  has_shape (length t0 + 1) (length t1 + 1) (st_C st) ∧
  has_shape (length t0) (length t1) (st_W st) ∧
  boundary (st_C st) (length t0) (length t1) ∧
  ∀ a b, 1 ≤ a ≤ length t0 → 1 ≤ b ≤ length t1 → a < i ∨ (a = i ∧ b < j) →
         cell_ok eucl_dist t0 t1 st a b.

Definition filled (eucl_dist : float * float → float * float → float)
    (t0 t1 : list (float * float)) (st : dtw_state) : Prop :=
  filled_to eucl_dist t0 t1 (S (length t0)) 1 st.

Definition s_cell_ok (great_circle_distance : float → float → float → float → float)
    (t0 t1 : list (float * float)) (C : matrix float) (i j : nat) : Prop :=
  mget C i j =
    PrimFloat.add
      (great_circle_distance (t0 !!! (i - 1)).1 (t0 !!! (i - 1)).2
                             (t1 !!! (j - 1)).1 (t1 !!! (j - 1)).2)
      (py_min3 (mget C i (j - 1)) (mget C (i - 1) (j - 1)) (mget C (i - 1) j)).

Definition s_filled_to (great_circle_distance : float → float → float → float → float)
    (t0 t1 : list (float * float)) (i j : nat) (C : matrix float) : Prop :=
  has_shape (length t0 + 1) (length t1 + 1) C ∧
  boundary C (length t0) (length t1) ∧
  ∀ a b, 1 ≤ a ≤ length t0 → 1 ≤ b ≤ length t1 → a < i ∨ (a = i ∧ b < j) →
         s_cell_ok great_circle_distance t0 t1 C a b.

(** No sum of the run overflows: at every cell the point distance added
    to any finite neighbour is finite.  [dist i j] is the distance of
    point [i] of [t0] and point [j] of [t1], [C] the padded matrix. *)
Definition no_overflow (dist : nat → nat → float) (n0 n1 : nat)
    (C : matrix float) : Prop :=
  ∀ i j m, i < n0 → j < n1 →
    m ∈ [mget C (S i) j; mget C i j; mget C i (S j)] →
    PrimFloat.is_finite m = true → PrimFloat.is_finite (dist i j + m)%float = true.

(** The cumulative point-distance along a list of index pairs, summed as
    the loops do along a chain of cells: from [0.0], each distance added
    to the sum so far, in the order of the list. *)
Definition path_cost (eucl_dist : float * float → float * float → float)
    (t0 t1 : list (float * float)) (path : list (Z * Z)) : float :=
  foldl (λ acc ab,
           PrimFloat.add (eucl_dist (t0 !!! Z.to_nat ab.1) (t1 !!! Z.to_nat ab.2)) acc)
        0%float path.

(** A float around [9e307], half of the smallest power of two beyond the
    range: twice this number is [+inf]. *)
Definition huge : float := 0x1p+1023%float.

End Float64.

(** * Properties *)

(** ** The order on costs *)

Lemma cost_ltb_lt a b : cost_ltb a b = true ↔ cost_lt a b.
Proof.
  destruct a as [x|], b as [y|]; simpl; try done.
  apply bool_decide_eq_true.
Qed.

Lemma cost_ltb_ge a b : cost_ltb a b = false ↔ cost_le b a.
Proof.
  destruct a as [x|], b as [y|]; simpl; try done.
  rewrite bool_decide_eq_false. symmetry. apply Qcle_ngt.
Qed.

Lemma cost_le_refl a : cost_le a a.
Proof. destruct a; simpl; [apply Qcle_refl | done]. Qed.

Lemma cost_le_trans a b c : cost_le a b → cost_le b c → cost_le a c.
Proof.
  destruct a, b, c; simpl; try done. apply Qcle_trans.
Qed.

Lemma cost_lt_le a b : cost_lt a b → cost_le a b.
Proof. destruct a, b; simpl; try done. apply Qclt_le_weak. Qed.

Lemma cost_lt_not_le a b : cost_lt a b ↔ ¬ cost_le b a.
Proof.
  destruct a, b; simpl; try tauto. apply Qclt_nge.
Qed.

Lemma cost_le_lt_trans a b c : cost_le a b → cost_lt b c → cost_lt a c.
Proof.
  destruct a, b, c; simpl; try done. apply Qcle_lt_trans.
Qed.

Lemma cost_le_inf_l a : cost_le Inf a → a = Inf.
Proof. by destruct a. Qed.

Lemma cost_le_finite a b : cost_le a b → is_finite b → is_finite a.
Proof. intros Hle [q ->]. destruct a; [by eexists | done]. Qed.

Lemma cost_add_finite a b : is_finite a → is_finite b → is_finite (cost_add a b).
Proof. intros [x ->] [y ->]. by eexists. Qed.

(** Adding a non-negative number does not decrease a cost. *)
Lemma cost_add_nonneg_le d c : (0 ≤ d)%Qc → cost_le c (cost_add (Fin d) c).
Proof.
  intros Hd. destruct c as [y|]; simpl; [|done].
  rewrite <-(Qcplus_0_l y) at 1. by apply Qcplus_le_mono_r.
Qed.

(** ** [argmin] and [min] on the three candidates *)

Lemma argmin3_unfold a b c :
  argmin [a; b; c] =
    if cost_ltb b a then (if cost_ltb c b then 2 else 1)
    else (if cost_ltb c a then 2 else 0).
Proof. reflexivity. Qed.

Lemma argmin3_lt a b c : argmin [a; b; c] < 3.
Proof. rewrite argmin3_unfold. repeat case_match; lia. Qed.

(** The index chosen among [[a; b; c]], case by case: the first of the
    smallest. *)
Lemma argmin3_left a b c :
  cost_le a b → cost_le a c → argmin [a; b; c] = 0.
Proof.
  intros Hab Hac. rewrite argmin3_unfold.
  apply cost_ltb_ge in Hab, Hac. by rewrite Hab, Hac.
Qed.

Lemma argmin3_diag a b c :
  cost_lt b a → cost_le b c → argmin [a; b; c] = 1.
Proof.
  intros Hba Hbc. rewrite argmin3_unfold.
  apply cost_ltb_lt in Hba. apply cost_ltb_ge in Hbc. by rewrite Hba, Hbc.
Qed.

Lemma argmin3_up a b c :
  cost_lt c a → cost_lt c b → argmin [a; b; c] = 2.
Proof.
  intros Hca Hcb. rewrite argmin3_unfold.
  apply cost_ltb_lt in Hca, Hcb. rewrite Hcb, Hca. by case_match.
Qed.

(** The chosen candidate is below the three of them. *)
Lemma argmin3_min a b c :
  let m := [a; b; c] !!! argmin [a; b; c] in
  cost_le m a ∧ cost_le m b ∧ cost_le m c.
Proof.
  rewrite argmin3_unfold.
  destruct (cost_ltb b a) eqn:Hba; destruct (cost_ltb c b) eqn:Hcb;
    try destruct (cost_ltb c a) eqn:Hca; simpl;
    repeat match goal with
      | H : cost_ltb _ _ = true |- _ => apply cost_ltb_lt, cost_lt_le in H
      | H : cost_ltb _ _ = false |- _ => apply cost_ltb_ge in H
      end;
    eauto 6 using cost_le_refl, cost_le_trans.
Qed.

(** The builtin [min] returns the candidate that [argmin] points to. *)
Lemma py_min3_argmin a b c : py_min3 a b c = [a; b; c] !!! argmin [a; b; c].
Proof.
  rewrite argmin3_unfold. unfold py_min3.
  destruct (cost_ltb b a); [by destruct (cost_ltb c b)|by destruct (cost_ltb c a)].
Qed.

(** ** Reading and writing matrices *)

Section Matrices.
Context {A : Type} `{!Inhabited A}.
Implicit Types (M : matrix A) (v : A).

Lemma has_shape_row n m M i :
  has_shape n m M → i < n → length (M !!! i) = m.
Proof.
  intros [Hn Hm] Hi. apply (Hm i), list_lookup_lookup_total_lt. lia.
Qed.

Lemma mset_shape n m M i j v : has_shape n m M → has_shape n m (mset M i j v).
Proof.
  intros [Hn Hm]. unfold mset. split; [by rewrite length_alter|].
  intros k row. rewrite list_lookup_alter.
  case_decide as Hk; [subst k|by apply Hm].
  destruct (M !! i) as [r|] eqn:Hr; simpl; [|done].
  intros [= <-]. rewrite length_insert. by apply (Hm i).
Qed.

Lemma mget_mset_eq n m M i j v :
  has_shape n m M → i < n → j < m → mget (mset M i j v) i j = v.
Proof.
  intros HM Hi Hj. unfold mget, mset.
  rewrite list_lookup_total_alter_eq by (destruct HM; lia).
  apply list_lookup_total_insert_eq. by rewrite (has_shape_row n m).
Qed.

Lemma mget_mset_ne M i j i' j' v :
  (i, j) ≠ (i', j') → mget (mset M i j v) i' j' = mget M i' j'.
Proof.
  intros Hne. unfold mget, mset.
  destruct (decide (i = i')) as [<-|Hi].
  - rewrite list_lookup_total_alter. case_decide; [|done].
    apply list_lookup_total_insert_ne. congruence.
  - by rewrite list_lookup_total_alter_ne.
Qed.

Lemma replicate_shape n m v : has_shape n m (replicate n (replicate m v)).
Proof.
  split; [by rewrite length_replicate|].
  intros i row [-> _]%lookup_replicate. by rewrite length_replicate.
Qed.

Lemma mget_replicate n m v i j :
  i < n → j < m → mget (replicate n (replicate m v)) i j = v.
Proof.
  intros Hi Hj. unfold mget. by rewrite !lookup_total_replicate_2.
Qed.
End Matrices.

Lemma init_shape n m : has_shape n m (set_row0_inf (set_col0_inf (zeros n m))).
Proof.
  unfold set_row0_inf, set_col0_inf, zeros. split.
  - by rewrite length_alter, length_imap, length_replicate.
  - intros i row. destruct i as [|i].
    + rewrite list_lookup_alter_eq, list_lookup_imap.
      intros (r & (r' & [-> _]%lookup_replicate & ->)%fmap_Some & ->)%fmap_Some.
      by rewrite length_imap, length_replicate.
    + rewrite list_lookup_alter_ne, list_lookup_imap by done.
      intros (r' & [-> _]%lookup_replicate & ->)%fmap_Some.
      by rewrite length_insert, length_replicate.
Qed.

Lemma init_get n m i j :
  i < n → j < m → mget (set_row0_inf (set_col0_inf (zeros n m))) i j = init_cell i j.
Proof.
  intros Hi Hj. unfold mget, set_row0_inf, set_col0_inf, zeros.
  destruct i as [|i].
  - erewrite (list_lookup_total_correct _ 0).
    2:{ rewrite list_lookup_alter_eq, list_lookup_imap, lookup_replicate_2 by done.
        reflexivity. }
    apply list_lookup_total_correct.
    rewrite list_lookup_imap, lookup_replicate_2 by done. by destruct j.
  - erewrite (list_lookup_total_correct _ (S i)).
    2:{ rewrite list_lookup_alter_ne, list_lookup_imap, lookup_replicate_2 by done.
        reflexivity. }
    apply list_lookup_total_correct. destruct j as [|j].
    + apply list_lookup_insert_eq. by rewrite length_replicate.
    + rewrite list_lookup_insert_ne by done. apply lookup_replicate_2. lia.
Qed.

(** ** The loops of [e_dtw] fill the matrices cell by cell *)

Section EuclideanEngine.
Variable eucl_dist : point → point → Qc.
Variables t0 t1 : list point.

Local Abbreviation n0 := (length t0).
Local Abbreviation n1 := (length t1).
Local Abbreviation filled_at := (filled_to eucl_dist t0 t1).

Lemma e_dtw_init_filled : filled_at 1 1 (e_dtw_init t0 t1).
Proof.
  unfold filled_to, e_dtw_init; simpl. split_and!.
  - apply init_shape.
  - apply replicate_shape.
  - unfold boundary. split_and!; intros; rewrite init_get by lia; try done.
    + by destruct i; [lia|].
    + by destruct j; [lia|].
  - intros a b Ha Hb. lia.
Qed.

Lemma e_dtw_cell_C st i j :
  st_C (e_dtw_cell eucl_dist t0 t1 i j st) =
    mset (st_C st) i j
      (cost_add (Fin (eucl_dist (t0 !!! (i - 1)) (t1 !!! (j - 1))))
                (candidates (st_C st) i j !!! argmin (candidates (st_C st) i j))).
Proof. reflexivity. Qed.

Lemma e_dtw_cell_W st i j :
  st_W (e_dtw_cell eucl_dist t0 t1 i j st) =
    mset (st_W st) (i - 1) (j - 1)
         (backptr_of i j (argmin (candidates (st_C st) i j))).
Proof.
  unfold e_dtw_cell, backptr_of; simpl.
  by destruct (bool_decide (i = 1) && bool_decide (j = 1)).
Qed.

(** A write at [(i,j)] leaves the candidates of the cells up to [(i,j)]
    as they are. *)
Lemma candidates_mset C i j v a b :
  1 ≤ a → 1 ≤ b → a < i ∨ (a = i ∧ b ≤ j) →
  candidates (mset C i j v) a b = candidates C a b.
Proof.
  intros Ha Hb Hab. unfold candidates.
  rewrite !mget_mset_ne; [done|intros [= ? ?]; lia..].
Qed.

Lemma e_dtw_cell_filled st i j :
  1 ≤ i ≤ n0 → 1 ≤ j ≤ n1 →
  filled_at i j st → filled_at i (S j) (e_dtw_cell eucl_dist t0 t1 i j st).
Proof.
  intros Hi Hj (HC & HW & (H00 & Hcol & Hrow) & Hcells).
  unfold filled_to. rewrite e_dtw_cell_C, e_dtw_cell_W. split_and!.
  - by apply mset_shape.
  - by apply mset_shape.
  - unfold boundary. split_and!.
    + rewrite mget_mset_ne by (intros [= ? ?]; lia). done.
    + intros a Ha. rewrite mget_mset_ne by (intros [= ? ?]; lia). by apply Hcol.
    + intros b Hb. rewrite mget_mset_ne by (intros [= ? ?]; lia). by apply Hrow.
  - intros a b Ha Hb Hab. unfold cell_ok.
    rewrite e_dtw_cell_C, e_dtw_cell_W. cbv zeta.
    rewrite candidates_mset by lia.
    destruct (decide ((a, b) = (i, j))) as [[= -> ->]|Hne].
    + rewrite (mget_mset_eq (n0 + 1) (n1 + 1)) by (done || lia).
      rewrite (mget_mset_eq n0 n1) by (done || lia). done.
    + rewrite !mget_mset_ne.
      * apply Hcells; [done..|]. destruct Hab as [?|[-> ?]]; [lia|].
        right. split; [done|]. destruct (decide (b = j)); [congruence|lia].
      * intros [= ? ?]. apply Hne. f_equal; lia.
      * congruence.
Qed.

Lemma e_dtw_row_filled st i :
  1 ≤ i ≤ n0 → filled_at i 1 st → filled_at (S i) 1 (e_dtw_row eucl_dist t0 t1 i st).
Proof.
  intros Hi Hst. unfold e_dtw_row.
  assert (Hk : ∀ k, k ≤ n1 →
    filled_at i (S k) (foldl (λ st j, e_dtw_cell eucl_dist t0 t1 i j st) st (seq 1 k))).
  { induction k as [|k IH]; intros Hle; [done|].
    rewrite seq_S, foldl_app. simpl. apply e_dtw_cell_filled; [lia..|].
    apply IH. lia. }
  destruct (Hk n1) as (HC & HW & Hb & Hcells); [done|].
  split_and!; try done.
  intros a b Ha Hb' Hab. apply Hcells; [done..|]. lia.
Qed.

Lemma e_dtw_loop_filled : filled eucl_dist t0 t1 (e_dtw_loop eucl_dist t0 t1).
Proof.
  unfold filled, e_dtw_loop.
  assert (Hk : ∀ k, k ≤ n0 →
    filled_at (S k) 1
      (foldl (λ st i, e_dtw_row eucl_dist t0 t1 i st) (e_dtw_init t0 t1) (seq 1 k))).
  { induction k as [|k IH]; intros Hle; [apply e_dtw_init_filled|].
    rewrite seq_S, foldl_app. simpl. apply e_dtw_row_filled; [lia|].
    apply IH. lia. }
  by apply Hk.
Qed.

End EuclideanEngine.

(** ** What a filled state looks like *)

Section Filled.
Variable eucl_dist : point → point → Qc.
Variables t0 t1 : list point.
Variable st : dtw_state.
Hypothesis Hfilled : filled eucl_dist t0 t1 st.

Let n0 := length t0.
Let n1 := length t1.
Let C := st_C st.
Let W := st_W st.

Lemma filled_cell i j : 1 ≤ i ≤ n0 → 1 ≤ j ≤ n1 → cell_ok eucl_dist t0 t1 st i j.
Proof.
  intros Hi Hj. destruct Hfilled as (_ & _ & _ & Hcells).
  apply Hcells; [done..|]. left. unfold n0 in Hi. lia.
Qed.

Lemma filled_boundary : boundary C n0 n1.
Proof. by destruct Hfilled as (_ & _ & ? & _). Qed.

Lemma filled_candidates i j :
  candidates C (S i) (S j) = [mget C (S i) j; mget C i j; mget C i (S j)].
Proof. unfold candidates. by rewrite !Nat.sub_succ, !Nat.sub_0_r. Qed.

(** The value of a computed cell, on trajectory indices. *)
Lemma filled_value i j :
  i < n0 → j < n1 →
  mget C (S i) (S j) =
    cost_add (Fin (eucl_dist (t0 !!! i) (t1 !!! j)))
             ([mget C (S i) j; mget C i j; mget C i (S j)]
                !!! argmin [mget C (S i) j; mget C i j; mget C i (S j)]).
Proof.
  intros Hi Hj. destruct (filled_cell (S i) (S j)) as [HC _]; [lia..|].
  fold C in HC. by rewrite filled_candidates, !Nat.sub_succ, !Nat.sub_0_r in HC.
Qed.

(** Every interior cell is a finite number. *)
Lemma filled_finite i j : i < n0 → j < n1 → is_finite (mget C (S i) (S j)).
Proof.
  destruct filled_boundary as (H00 & Hcol & Hrow).
  revert j. induction i as [|i IHi]; intros j; induction j as [|j IHj];
    intros Hi Hj; rewrite filled_value by done;
    apply cost_add_finite; try (by eexists);
    match goal with
    | |- is_finite ([?a; ?b; ?c] !!! _) =>
        destruct (argmin3_min a b c) as (Hl & Hd & Hu)
    end.
  - eapply cost_le_finite; [exact Hd|]. rewrite H00. by eexists.
  - eapply cost_le_finite; [exact Hl|]. apply IHj; lia.
  - eapply cost_le_finite; [exact Hu|]. apply IHi; lia.
  - eapply cost_le_finite; [exact Hl|]. apply IHj; lia.
Qed.

(** The backpointer of a computed cell, on trajectory indices. *)
Lemma filled_backptr i j :
  i < n0 → j < n1 →
  mget W i j =
    backptr_of (S i) (S j) (argmin [mget C (S i) j; mget C i j; mget C i (S j)]).
Proof.
  intros Hi Hj. destruct (filled_cell (S i) (S j)) as [_ HW]; [lia..|].
  fold C W in HW. by rewrite filled_candidates, !Nat.sub_succ, !Nat.sub_0_r in HW.
Qed.

(** In row 0 only the left neighbour is finite, in column 0 only the
    upper one. *)
Lemma filled_argmin_row0 j :
  0 < n0 → S j < n1 → argmin [mget C 1 (S j); mget C 0 (S j); mget C 0 (S (S j))] = 0.
Proof.
  intros Hi Hj. destruct filled_boundary as (_ & _ & Hrow).
  rewrite !Hrow by lia. by apply argmin3_left; destruct (mget C 1 (S j)).
Qed.

Lemma filled_argmin_col0 i :
  S i < n0 → 0 < n1 → argmin [mget C (S (S i)) 0; mget C (S i) 0; mget C (S i) 1] = 2.
Proof.
  intros Hi Hj. destruct filled_boundary as (_ & Hcol & _).
  rewrite !Hcol by lia.
  destruct (filled_finite i 0) as [q ->]; [lia..|]. by apply argmin3_up.
Qed.

Lemma filled_wf_backptrs : wf_backptrs n0 n1 W.
Proof.
  split; [by destruct Hfilled as (_ & ? & _)|].
  intros i j Hi Hj. rewrite filled_backptr by done.
  case_decide as H0; [by destruct H0 as [-> ->]|].
  destruct i as [|i], j as [|j]; [tauto|..].
  - rewrite filled_argmin_row0 by done. exists 0, j. split.
    + unfold backptr_of; simpl. repeat f_equal; lia.
    + unfold unit_step_back. lia.
  - rewrite filled_argmin_col0 by done. exists i, 0. split.
    + unfold backptr_of; simpl. repeat f_equal; lia.
    + unfold unit_step_back. lia.
  - pose proof (argmin3_lt (mget C (S (S i)) (S j)) (mget C (S i) (S j))
                  (mget C (S i) (S (S j)))) as Hk.
    destruct (argmin _) as [|[|[|k]]]; [..|lia].
    + exists (S i), j. split; [|unfold unit_step_back; lia].
      unfold backptr_of; simpl. repeat f_equal; lia.
    + exists i, j. split; [|unfold unit_step_back; lia].
      unfold backptr_of; simpl. repeat f_equal; lia.
    + exists i, (S j). split; [|unfold unit_step_back; lia].
      unfold backptr_of; simpl. repeat f_equal; lia.
Qed.

End Filled.

(** ** Walking a well-formed backpointer matrix *)

Lemma py_index_nat {A} (l : list A) (i : nat) : py_index l (Z.of_nat i) = l !! i.
Proof.
  unfold py_index. rewrite (proj2 (Z.leb_le 0 _)) by lia. by rewrite Nat2Z.id.
Qed.

Lemma py_index_nil {A} (i : Z) : py_index (@nil A) i = None.
Proof. unfold py_index; simpl. by repeat case_match. Qed.

(** An index at or beyond the length raises, as does one below minus the
    length. *)
Lemma py_index_out_of_range {A} (l : list A) (i : Z) :
  (Z.of_nat (length l) ≤ i ∨ i < - Z.of_nat (length l))%Z → py_index l i = None.
Proof.
  intros Hi. unfold py_index.
  destruct (Z.leb_spec 0 i); [|destruct (Z.leb_spec (- Z.of_nat (length l)) i)].
  - apply lookup_ge_None_2. lia.
  - lia.
  - done.
Qed.

Lemma mget_lookup {A} `{!Inhabited A} n m (M : matrix A) i j :
  has_shape n m M → i < n → j < m →
  ∃ row, M !! i = Some row ∧ row !! j = Some (mget M i j).
Proof.
  intros HM Hi Hj. exists (M !!! i). split.
  - apply list_lookup_lookup_total_lt. destruct HM. lia.
  - apply list_lookup_lookup_total_lt. by rewrite (has_shape_row n m).
Qed.

Lemma descends_head p seg : descends p seg → head seg = Some p.
Proof. by destruct 1. Qed.

Lemma descends_last p seg : descends p seg → last seg = Some (0, 0)%Z.
Proof.
  induction 1 as [|p q seg Hp Hstep Hseg IH]; [done|].
  destruct Hseg; by rewrite last_cons_cons in *.
Qed.

Lemma descends_consecutive p seg :
  descends p seg → consecutive (flip forward_step) seg.
Proof.
  induction 1 as [|p q seg Hp Hstep Hseg IH]; intros k a b Ha Hb.
  - by destruct k.
  - destruct k as [|k]; simpl in *.
    + injection Ha as <-. apply descends_head in Hseg.
      rewrite head_lookup in Hseg. by simplify_eq.
    + by apply (IH k).
Qed.

Lemma consecutive_reverse {A} (R : A → A → Prop) (l : list A) :
  consecutive (flip R) l → consecutive R (reverse l).
Proof.
  intros Hl k p q Hp Hq.
  assert (S k < length l) as Hk.
  { apply lookup_lt_Some in Hq. by rewrite length_reverse in Hq. }
  rewrite reverse_lookup in Hp, Hq by lia.
  apply (Hl (length l - S (S k))); [done|].
  by replace (S (length l - S (S k))) with (length l - S k) by lia.
Qed.

(** One turn of the loop. *)
Lemma walk_step fuel W a b row next path :
  (a, b) ≠ (0, 0)%Z → py_index W a = Some row → py_index row b = Some next →
  walk (S fuel) W (Some (a, b)) path = walk fuel W next (path ++ [(a, b)]).
Proof.
  intros Hne Hrow Hnext. simpl.
  rewrite bool_decide_eq_false_2 by congruence. by rewrite Hrow, Hnext.
Qed.

Lemma walk_origin fuel W path :
  walk (S fuel) W (Some (0, 0)%Z) path = Returns (reverse (path ++ [(0, 0)%Z])).
Proof. done. Qed.

Section Walk.
Variables n0 n1 : nat.
Variable W : matrix backptr.
Hypothesis HW : wf_backptrs n0 n1 W.

(** From an in-range cell, [i + j + 1] evaluations of the loop condition
    are enough, and the cells appended are a descent to the origin. *)
Lemma walk_wf fuel : ∀ i j path,
  i < n0 → j < n1 → i + j < fuel →
  ∃ seg,
    walk fuel W (Some (Z.of_nat i, Z.of_nat j)) path = Returns (reverse (path ++ seg)) ∧
    descends (Z.of_nat i, Z.of_nat j) seg ∧
    length seg ≤ i + j + 1.
Proof.
  destruct HW as [Hshape Hcells].
  induction fuel as [|fuel IH]; intros i j path Hi Hj Hfuel; [lia|].
  specialize (Hcells i j Hi Hj).
  case_decide as H0.
  - destruct H0 as [-> ->]. rewrite walk_origin.
    exists [(0, 0)%Z]. split_and!; [done|constructor|simpl; lia].
  - destruct Hcells as (i' & j' & Hcell & Hstep).
    destruct (mget_lookup n0 n1 W i j) as (row & Hrow & Hget); [done..|].
    rewrite Hcell in Hget.
    rewrite (walk_step _ _ _ _ row (Some (Z.of_nat i', Z.of_nat j')));
      [|intros [= ? ?]; lia|by rewrite py_index_nat..].
    destruct (IH i' j' (path ++ [(Z.of_nat i, Z.of_nat j)])) as (seg & Hwalk & Hseg & Hlen);
      [unfold unit_step_back in Hstep; lia..|].
    exists ((Z.of_nat i, Z.of_nat j) :: seg). split_and!.
    + by rewrite Hwalk, <-app_assoc.
    + apply descends_step with (Z.of_nat i', Z.of_nat j');
        [intros [= ? ?]; lia| |done].
      unfold forward_step, unit_step_back in *; simpl. lia.
    + simpl. unfold unit_step_back in Hstep. lia.
Qed.

(** The reconstruction on a well-formed matrix of at least one row and
    one column. *)
Lemma extract_wf fuel :
  0 < n0 → 0 < n1 → n0 + n1 ≤ S fuel →
  ∃ path,
    e_extract_dtw_warping_path fuel W = Returns path ∧
    head path = Some (0, 0)%Z ∧
    last path = Some (Z.of_nat n0 - 1, Z.of_nat n1 - 1)%Z ∧
    consecutive forward_step path ∧
    length path ≤ n0 + n1 - 1.
Proof.
  intros Hn0 Hn1 Hfuel. unfold e_extract_dtw_warping_path.
  destruct (mget_lookup n0 n1 W 0 0) as (row0 & Hrow0 & _); [apply HW|done..|].
  change 0%Z with (Z.of_nat 0). rewrite py_index_nat, Hrow0.
  assert (length W = n0) as -> by apply HW.
  assert (length row0 = n1) as -> by (by eapply (proj2 (proj1 HW))).
  replace (Z.of_nat n0 - 1)%Z with (Z.of_nat (n0 - 1)) by lia.
  replace (Z.of_nat n1 - 1)%Z with (Z.of_nat (n1 - 1)) by lia.
  destruct (walk_wf fuel (n0 - 1) (n1 - 1) []) as (seg & Hwalk & Hseg & Hlen); [lia..|].
  exists (reverse seg). split_and!.
  - done.
  - rewrite head_reverse. by eapply descends_last.
  - rewrite last_reverse. by eapply descends_head.
  - apply consecutive_reverse. by eapply descends_consecutive.
  - rewrite length_reverse. lia.
Qed.

End Walk.

(** ** [s_dtw] runs the recurrence of [e_dtw] *)

(** Two loops over the same range whose bodies preserve a relation between
    their states. *)
Lemma foldl_related {A B X} (R : A → B → Prop) (f : A → X → A) (g : B → X → B)
    (l : list X) (a : A) (b : B) :
  R a b →
  (∀ x a b, x ∈ l → R a b → R (f a x) (g b x)) →
  R (foldl f a l) (foldl g b l).
Proof.
  revert a b. induction l as [|x l IH]; intros a b Hab Hstep; [done|].
  simpl. apply IH.
  - apply Hstep; [left|done].
  - intros y a' b' Hy. apply Hstep. by right.
Qed.

Section Agreement.
Variable eucl_dist : point → point → Qc.
Variable great_circle_distance : Qc → Qc → Qc → Qc → Qc.
Variables t0 t1 : list point.

Hypothesis Hagree : agree_on_trajectories eucl_dist great_circle_distance t0 t1.

Lemma cell_agree i j st :
  i ∈ seq 1 (length t0) → j ∈ seq 1 (length t1) →
  st_C (e_dtw_cell eucl_dist t0 t1 i j st) =
    s_dtw_cell great_circle_distance t0 t1 i j (st_C st).
Proof.
  intros Hi%elem_of_seq Hj%elem_of_seq.
  rewrite e_dtw_cell_C. unfold s_dtw_cell, candidates.
  rewrite py_min3_argmin, Hagree; [done|apply list_elem_of_lookup_total_2; lia..].
Qed.

Lemma loop_agree :
  st_C (e_dtw_loop eucl_dist t0 t1) = s_dtw_loop great_circle_distance t0 t1.
Proof.
  unfold e_dtw_loop, s_dtw_loop.
  apply (foldl_related (λ st C, st_C st = C)); [done|].
  intros i st C Hi <-. unfold e_dtw_row, s_dtw_row.
  apply (foldl_related (λ st C, st_C st = C)); [done|].
  intros j st' C' Hj <-. by apply cell_agree.
Qed.

End Agreement.

(** [s_dtw] is [e_dtw] run on the point-distance that forwards the four
    coordinates. *)
Lemma s_dtw_loop_as_e_dtw great_circle_distance t0 t1 :
  s_dtw_loop great_circle_distance t0 t1 =
    st_C (e_dtw_loop (λ p q, great_circle_distance p.1 p.2 q.1 q.2) t0 t1).
Proof. symmetry. by apply loop_agree. Qed.

(** ** Values of the cost matrix under a non-negative point-distance *)

Lemma argmin3_cases (a b c : cost) :
  let m := [a; b; c] !!! argmin [a; b; c] in m = a ∨ m = b ∨ m = c.
Proof.
  pose proof (argmin3_lt a b c) as Hk.
  destruct (argmin [a; b; c]) as [|[|[|k]]]; simpl; auto. lia.
Qed.

Lemma cost_le_antisym a b : cost_le a b → cost_le b a → a = b.
Proof.
  destruct a, b; simpl; try done. intros. f_equal. by apply Qcle_antisym.
Qed.

Lemma cost_add_nonneg d c :
  (0 ≤ d)%Qc → cost_le (Fin 0%Qc) c → cost_le (Fin 0%Qc) (cost_add (Fin d) c).
Proof.
  intros Hd Hc. destruct c as [y|]; simpl in *; [|done].
  by apply Qcplus_nonneg_nonneg.
Qed.

Lemma cost_add_pos d c :
  (0 < d)%Qc → cost_le (Fin 0%Qc) c → cost_lt (Fin 0%Qc) (cost_add (Fin d) c).
Proof.
  intros Hd Hc. destruct c as [y|]; simpl in *; [|done].
  by apply Qcplus_pos_nonneg.
Qed.

Section NonNegative.
Variable eucl_dist : point → point → Qc.
Variables t0 t1 : list point.
Variable st : dtw_state.
Hypothesis Hfilled : filled eucl_dist t0 t1 st.
Hypothesis Hnonneg : ∀ p q, (0 ≤ eucl_dist p q)%Qc.

Let n0 := length t0.
Let n1 := length t1.
Let C := st_C st.

(** A computed cell is at least the smallest of its three neighbours. *)
Lemma filled_ge_min i j :
  i < n0 → j < n1 →
  cost_le (py_min3 (mget C (S i) j) (mget C i j) (mget C i (S j)))
          (mget C (S i) (S j)).
Proof.
  intros Hi Hj. unfold C. rewrite (filled_value eucl_dist t0 t1) by done.
  rewrite py_min3_argmin. by apply cost_add_nonneg_le.
Qed.

(** No cell of the padded matrix is negative. *)
Lemma filled_nonneg i j : i ≤ n0 → j ≤ n1 → cost_le (Fin 0%Qc) (mget C i j).
Proof.
  destruct (filled_boundary eucl_dist t0 t1 st Hfilled) as (H00 & Hcol & Hrow).
  fold C n0 n1 in H00, Hcol, Hrow.
  revert j. induction i as [|i IHi]; intros j; induction j as [|j IHj]; intros Hi Hj.
  - rewrite H00. apply cost_le_refl.
  - by rewrite Hrow by lia.
  - by rewrite Hcol by lia.
  - unfold C. rewrite (filled_value eucl_dist t0 t1) by (done || lia).
    apply cost_add_nonneg; [done|]. fold C.
    destruct (argmin3_cases (mget C (S i) j) (mget C i j) (mget C i (S j)))
      as [-> | [-> | ->]].
    + apply IHj; lia.
    + apply IHi; lia.
    + apply IHi; lia.
Qed.

End NonNegative.

(** ** A trajectory against itself *)

Section Identity.
Variable eucl_dist : point → point → Qc.
Variable t : list point.
Variable st : dtw_state.
Hypothesis Hfilled : filled eucl_dist t t st.
Hypothesis Hnonneg : ∀ p q, (0 ≤ eucl_dist p q)%Qc.
Hypothesis Hrefl : ∀ p, eucl_dist p p = 0%Qc.

Let n := length t.
Let C := st_C st.
Let W := st_W st.

(** The diagonal of the cost matrix is zero. *)
Lemma identity_diag_zero i : i ≤ n → mget C i i = Fin 0%Qc.
Proof.
  induction i as [|i IH]; intros Hi.
  - by destruct (filled_boundary eucl_dist t t st Hfilled) as (H00 & _).
  - unfold C. rewrite (filled_value eucl_dist t t) by (done || lia). fold C.
    rewrite Hrefl.
    destruct (argmin3_min (mget C (S i) i) (mget C i i) (mget C i (S i)))
      as (_ & Hd & _).
    rewrite IH in Hd by lia.
    assert ([mget C (S i) i; mget C i i; mget C i (S i)]
              !!! argmin [mget C (S i) i; mget C i i; mget C i (S i)] = Fin 0%Qc) as Hm.
    { apply cost_le_antisym; [by rewrite IH by lia|].
      destruct (argmin3_cases (mget C (S i) i) (mget C i i) (mget C i (S i)))
        as [-> | [-> | ->]];
        apply (filled_nonneg eucl_dist t t st Hfilled Hnonneg); fold n; lia. }
    rewrite Hm. simpl. by rewrite Qcplus_0_l.
Qed.

Hypothesis Hsep : ∀ p q, eucl_dist p q = 0%Qc → p = q.
Hypothesis Hdistinct : ∀ k p q, t !! k = Some p → t !! S k = Some q → p ≠ q.

(** Left of the diagonal the cost is positive. *)
Lemma identity_left_pos i :
  S i < n → cost_lt (Fin 0%Qc) (mget C (S (S i)) (S i)).
Proof.
  intros Hi. unfold C. rewrite (filled_value eucl_dist t t) by (done || lia).
  apply cost_add_pos.
  - destruct (Qcle_lt_or_eq _ _ (Hnonneg (t !!! S i) (t !!! i))) as [?|Heq]; [done|].
    symmetry in Heq. apply Hsep in Heq.
    exfalso. apply (Hdistinct i (t !!! i) (t !!! S i)); [..|done];
      apply list_lookup_lookup_total_lt; fold n; lia.
  - fold C.
    destruct (argmin3_cases (mget C (S (S i)) i) (mget C (S i) i) (mget C (S i) (S i)))
      as [-> | [-> | ->]];
      apply (filled_nonneg eucl_dist t t st Hfilled Hnonneg); fold n; lia.
Qed.

(** Off the origin, a diagonal cell points to the diagonal cell before. *)
Lemma identity_backptr i :
  S i < n → mget W (S i) (S i) = Some (Z.of_nat i, Z.of_nat i).
Proof.
  intros Hi. unfold W. rewrite (filled_backptr eucl_dist t t) by done. fold C.
  rewrite argmin3_diag.
  - unfold backptr_of; simpl. repeat f_equal; lia.
  - rewrite identity_diag_zero by lia. by apply identity_left_pos.
  - rewrite identity_diag_zero by lia.
    apply (filled_nonneg eucl_dist t t st Hfilled Hnonneg); fold n; lia.
Qed.

(** The walk from a diagonal cell stays on the diagonal. *)
Lemma identity_walk i : ∀ fuel path,
  i < n → i < fuel →
  walk fuel W (Some (Z.of_nat i, Z.of_nat i)) path =
    Returns (diagonal (S i) ++ reverse path).
Proof.
  assert (has_shape n n W) as HW by (by destruct Hfilled as (_ & ? & _)).
  induction i as [|i IH]; intros fuel path Hi Hfuel;
    (destruct fuel as [|fuel]; [lia|]).
  - change (Z.of_nat 0) with 0%Z. rewrite walk_origin.
    by rewrite reverse_snoc.
  - destruct (mget_lookup n n W (S i) (S i)) as (row & Hrow & Hget); [done..|].
    rewrite identity_backptr in Hget by done.
    rewrite (walk_step _ _ _ _ row (Some (Z.of_nat i, Z.of_nat i)));
      [|intros [= ? ?]; lia|by rewrite py_index_nat..].
    rewrite IH by lia. f_equal. unfold diagonal.
    rewrite (seq_S (S i)), fmap_app, reverse_snoc, <-app_assoc. done.
Qed.

End Identity.

(** ** The taxicab distance is non-negative and separates points *)

Lemma Qc_abs_nonneg x : (0 ≤ Qc_abs x)%Qc.
Proof.
  unfold Qc_abs. case_bool_decide as Hx.
  - apply Qclt_le_weak, Qcopp_le_compat in Hx. by replace (- 0)%Qc with 0%Qc in Hx by ring.
  - by apply Qcle_ngt.
Qed.

Lemma Qc_abs_zero x : Qc_abs x = 0%Qc → x = 0%Qc.
Proof.
  unfold Qc_abs. case_bool_decide as Hx; [|done].
  intros H0. rewrite <-(Qcopp_involutive x), H0. ring.
Qed.

Lemma Qc_nonneg_sum_zero x y :
  (0 ≤ x)%Qc → (0 ≤ y)%Qc → (x + y)%Qc = 0%Qc → x = 0%Qc ∧ y = 0%Qc.
Proof.
  intros Hx Hy Hsum.
  assert (x = 0%Qc) as ->.
  { apply Qcle_antisym; [|done]. rewrite <-Hsum.
    rewrite <-(Qcplus_0_r x) at 1. by apply Qcplus_le_mono_l. }
  split; [done|]. by rewrite Qcplus_0_l in Hsum.
Qed.

Lemma taxicab_nonneg p q : (0 ≤ taxicab p q)%Qc.
Proof. apply Qcplus_nonneg_nonneg; apply Qc_abs_nonneg. Qed.

Lemma taxicab_refl p : taxicab p p = 0%Qc.
Proof.
  unfold taxicab. replace (p.1 - p.1)%Qc with 0%Qc by ring.
  replace (p.2 - p.2)%Qc with 0%Qc by ring. by apply Qc_is_canon.
Qed.

Lemma taxicab_sep p q : taxicab p q = 0%Qc → p = q.
Proof.
  intros H0. apply Qc_nonneg_sum_zero in H0 as [H1 H2]; [|apply Qc_abs_nonneg..].
  apply Qc_abs_zero in H1, H2. destruct p as [x y], q as [x' y']; simpl in *.
  f_equal.
  - rewrite <-(Qcplus_0_r x'), <-H1. ring.
  - rewrite <-(Qcplus_0_r y'), <-H2. ring.
Qed.

Lemma Qc_abs_opp x : Qc_abs (- x) = Qc_abs x.
Proof.
  unfold Qc_abs. repeat case_bool_decide; try done; try ring;
    unfold Qcle, Qclt in *; simpl in *; rewrite ?Qred_correct in *.
  - lra.
  - apply Qc_is_canon. simpl. rewrite Qred_correct. lra.
Qed.

Lemma taxicab_sym p q : taxicab p q = taxicab q p.
Proof.
  unfold taxicab.
  rewrite <-(Qc_abs_opp (p.1 - q.1)), <-(Qc_abs_opp (p.2 - q.2)).
  by replace (- (p.1 - q.1))%Qc with (q.1 - p.1)%Qc by ring;
     replace (- (p.2 - q.2))%Qc with (q.2 - p.2)%Qc by ring.
Qed.

Lemma Qc_abs_triangle x y : (Qc_abs (x + y) ≤ Qc_abs x + Qc_abs y)%Qc.
Proof.
  unfold Qc_abs. repeat case_bool_decide;
  unfold Qcle, Qclt in *; simpl in *; rewrite ?Qred_correct in *; lra.
Qed.

Lemma taxicab_triangle p q r : (taxicab p r ≤ taxicab p q + taxicab q r)%Qc.
Proof.
  unfold taxicab.
  replace (p.1 - r.1)%Qc with ((p.1 - q.1) + (q.1 - r.1))%Qc by ring.
  replace (p.2 - r.2)%Qc with ((p.2 - q.2) + (q.2 - r.2))%Qc by ring.
  pose proof (Qc_abs_triangle (p.1 - q.1) (q.1 - r.1)) as H1.
  pose proof (Qc_abs_triangle (p.2 - q.2) (q.2 - r.2)) as H2.
  revert H1 H2. generalize (Qc_abs (p.1 - q.1 + (q.1 - r.1))), (Qc_abs (p.2 - q.2 + (q.2 - r.2))),
    (Qc_abs (p.1 - q.1)), (Qc_abs (q.1 - r.1)), (Qc_abs (p.2 - q.2)), (Qc_abs (q.2 - r.2)).
  intros a b c d e f. unfold Qcle; simpl. rewrite ?Qred_correct. lra.
Qed.

(** ** Loops that run no body *)

Lemma e_dtw_loop_nil_l eucl_dist t1 :
  e_dtw_loop eucl_dist [] t1 = e_dtw_init [] t1.
Proof. reflexivity. Qed.

Lemma e_dtw_loop_nil_r eucl_dist t0 :
  e_dtw_loop eucl_dist t0 [] = e_dtw_init t0 [].
Proof.
  unfold e_dtw_loop. generalize (e_dtw_init t0 []), (seq 1 (length t0)).
  intros st l. revert st. induction l as [|i l IH]; intros st; [done|].
  simpl. apply IH.
Qed.

Lemma interior_no_columns (C : matrix cost) n :
  has_shape (S n) 1 C → interior C = replicate n [].
Proof.
  intros [Hlen Hrows]. unfold interior.
  apply list_eq. intros i. rewrite list_lookup_fmap, lookup_drop.
  destruct (decide (i < n)) as [Hi|Hi].
  - rewrite lookup_replicate_2 by done.
    destruct (C !! (1 + i)) as [row|] eqn:Hrow.
    + simpl. f_equal. apply nil_length_inv. rewrite length_drop.
      rewrite (Hrows _ _ Hrow). done.
    + apply lookup_ge_None in Hrow. lia.
  - rewrite (proj1 (lookup_replicate_None _ _ _)) by lia.
    rewrite (proj2 (lookup_ge_None _ _)) by lia. done.
Qed.

Lemma interior_no_rows (C : matrix cost) m :
  has_shape 1 m C → interior C = [].
Proof.
  intros [Hlen _]. unfold interior.
  destruct C as [|row [|row' C]]; simpl in *; done || lia.
Qed.

(** ** The engines on empty trajectories *)

Lemma e_dtw_nil_l eucl_dist (t : list point) :
  t ≠ [] → e_dtw eucl_dist [] t = (Inf, [], []).
Proof.
  intros Ht. unfold e_dtw. rewrite e_dtw_loop_nil_l. unfold e_dtw_init; simpl.
  rewrite init_get by lia.
  rewrite (interior_no_rows _ (length t + 1)) by apply (init_shape 1).
  by destruct t.
Qed.

Lemma e_dtw_nil_r eucl_dist (t : list point) :
  t ≠ [] →
  e_dtw eucl_dist t [] = (Inf, replicate (length t) [], replicate (length t) []).
Proof.
  intros Ht. unfold e_dtw. rewrite e_dtw_loop_nil_r. unfold e_dtw_init; simpl.
  rewrite init_get by lia.
  rewrite (interior_no_columns _ (length t))
    by (rewrite <-Nat.add_1_r; apply init_shape).
  by destruct t.
Qed.

Lemma s_dtw_as_e_dtw great_circle_distance t0 t1 :
  s_dtw great_circle_distance t0 t1 =
    (e_dtw (λ p q, great_circle_distance p.1 p.2 q.1 q.2) t0 t1).1.1.
Proof. unfold s_dtw, e_dtw. by rewrite s_dtw_loop_as_e_dtw. Qed.

(** C10. Neither engine rejects an empty trajectory: the loops fall
    through.  The scalar is 0 when both trajectories are empty and
    [+inf] when exactly one is; [e_dtw] then returns an interior cost
    matrix and a backpointer matrix without any cell (no row, or rows
    of no column). *)
Theorem empty_trajectories_fall_through
    (eucl_dist : point → point → Qc)
    (great_circle_distance : Qc → Qc → Qc → Qc → Qc) (t : list point) :
  t ≠ [] →
  e_dtw eucl_dist [] [] = (Fin 0%Qc, [], []) ∧
  e_dtw eucl_dist [] t = (Inf, [], []) ∧
  e_dtw eucl_dist t [] = (Inf, replicate (length t) [], replicate (length t) []) ∧
  s_dtw great_circle_distance [] [] = Fin 0%Qc ∧
  s_dtw great_circle_distance [] t = Inf ∧
  s_dtw great_circle_distance t [] = Inf.
Proof.
  intros Ht. split_and!.
  - reflexivity.
  - by apply e_dtw_nil_l.
  - by apply e_dtw_nil_r.
  - reflexivity.
  - by rewrite s_dtw_as_e_dtw, e_dtw_nil_l.
  - by rewrite s_dtw_as_e_dtw, e_dtw_nil_r.
Qed.

Lemma empty_trajectories_fall_through_witness :
  e_dtw taxicab [] [] = (Fin 0%Qc, [], []) ∧
  e_dtw taxicab [] [pt 1 2] = (Inf, [], []) ∧
  e_dtw taxicab [pt 1 2] [] = (Inf, [[]], [[]]) ∧
  s_dtw coords [] [] = Fin 0%Qc ∧
  s_dtw coords [] [pt 1 2] = Inf ∧
  s_dtw coords [pt 1 2] [] = Inf.
Proof. apply (empty_trajectories_fall_through taxicab coords [pt 1 2]). done. Defined.

(** ** The tie-break among the three candidates *)

(** C1. At every cell [(i,j)] of the double loop the predecessor written
    to [W[i-1][j-1]] is the first of [left = C[i][j-1]],
    [diag = C[i-1][j-1]], [up = C[i-1][j]] that attains their minimum:
    left when it is below the two others, also when it ties with one of
    them; diag when it is strictly below left and below up, also when it
    ties with up; up only when it is strictly below both.  The cell of
    the coordinates recorded is the chosen one, minus one in each
    coordinate; at [(1,1)] no predecessor is recorded.  [e_dtw] is a
    function of its two arguments, so that a second call records the
    same backpointers. *)
Theorem backpointer_first_minimum
    (eucl_dist : point → point → Qc) (t0 t1 : list point) (i j : nat) :
  1 ≤ i ≤ length t0 → 1 ≤ j ≤ length t1 →
  let C := st_C (e_dtw_loop eucl_dist t0 t1) in
  let W := (e_dtw eucl_dist t0 t1).2 in
  let left := mget C i (j - 1) in
  let diag := mget C (i - 1) (j - 1) in
  let up := mget C (i - 1) j in
  if bool_decide (i = 1) && bool_decide (j = 1) then mget W (i - 1) (j - 1) = None
  else
    (cost_le left diag → cost_le left up →
       mget W (i - 1) (j - 1) = Some (Z.of_nat i - 1, Z.of_nat j - 2)%Z) ∧
    (cost_lt diag left → cost_le diag up →
       mget W (i - 1) (j - 1) = Some (Z.of_nat i - 2, Z.of_nat j - 2)%Z) ∧
    (cost_lt up left → cost_lt up diag →
       mget W (i - 1) (j - 1) = Some (Z.of_nat i - 2, Z.of_nat j - 1)%Z).
Proof.
  intros Hi Hj C W left diag up.
  destruct (filled_cell eucl_dist t0 t1 _ (e_dtw_loop_filled eucl_dist t0 t1) i j)
    as [_ HW]; [done..|].
  change (mget W (i - 1) (j - 1) = backptr_of i j (argmin [left; diag; up])) in HW.
  rewrite HW. unfold backptr_of.
  destruct (bool_decide (i = 1) && bool_decide (j = 1)); [done|].
  split_and!; intros H1 H2.
  - rewrite argmin3_left by done. simpl. f_equal. f_equal; lia.
  - rewrite argmin3_diag by done. simpl. f_equal. f_equal; lia.
  - rewrite argmin3_up by done. simpl. f_equal. f_equal; lia.
Qed.

(** At cell [(2,2)] of a trajectory of two equal points against itself the
    three candidates are all 0, and left, cell [(2,1)], is recorded. *)
Lemma backpointer_first_minimum_witness :
  let t := [pt 0 0; pt 0 0] in
  let C := st_C (e_dtw_loop taxicab t t) in
  let W := (e_dtw taxicab t t).2 in
  mget C 2 1 = mget C 1 1 ∧ mget C 2 1 = mget C 1 2 ∧
  mget W 1 1 = Some (1, 0)%Z.
Proof.
  destruct (backpointer_first_minimum taxicab [pt 0 0; pt 0 0] [pt 0 0; pt 0 0] 2 2)
    as (Hleft & _ & _); [simpl; lia..|].
  split_and!; [by apply (bool_decide_unpack _)..|].
  apply Hleft; by vm_compute.
Defined.

(** ** The single-point case *)

(** C8. For [t0 = [(0,0)]] and [t1 = [(3,4)]], with a point-distance that
    is 5 on these two points as the Euclidean distance is, [e_dtw] returns
    the distance 5, the one-cell cost matrix [[[5]]] and the one-cell
    backpointer matrix [[[None]]], and the reconstruction returns the
    path [[(0,0)]]. *)
Theorem single_point_case (eucl_dist : point → point → Qc) (fuel : nat) :
  eucl_dist (pt 0 0) (pt 3 4) = Qc_of_Z 5 →
  e_dtw eucl_dist [pt 0 0] [pt 3 4] =
    (Fin (Qc_of_Z 5), [[Fin (Qc_of_Z 5)]], [[None]]) ∧
  e_extract_dtw_warping_path (S fuel) (e_dtw eucl_dist [pt 0 0] [pt 3 4]).2 =
    Returns [(0, 0)%Z].
Proof.
  intros Hd. split.
  - change (e_dtw eucl_dist [pt 0 0] [pt 3 4])
      with (Fin (eucl_dist (pt 0 0) (pt 3 4) + 0)%Qc,
            [[Fin (eucl_dist (pt 0 0) (pt 3 4) + 0)%Qc]],
            [[None : option (Z * Z)]]).
    by rewrite Hd, Qcplus_0_r.
  - reflexivity.
Qed.

Lemma single_point_case_witness :
  e_dtw lattice_dist [pt 0 0] [pt 3 4] =
    (Fin (Qc_of_Z 5), [[Fin (Qc_of_Z 5)]], [[None]]) ∧
  e_extract_dtw_warping_path 1 (e_dtw lattice_dist [pt 0 0] [pt 3 4]).2 =
    Returns [(0, 0)%Z].
Proof. apply (single_point_case lattice_dist 0). by apply Qc_is_canon. Defined.

(** ** The cost of a cell and the costs of its neighbours *)

(** C3, as stated, fails: on [t0 = t1 = [(0,0), (5,0)]] the cell [(2,2)] holds
    0, while its upper neighbour [(1,2)] holds 5.  The two points lie on
    a line parallel to an axis, where the taxicab distance is the
    Euclidean one. *)
Lemma cost_not_above_max_neighbour :
  let t := [pt 0 0; pt 5 0] in
  let C := st_C (e_dtw_loop taxicab t t) in
  let Cs := s_dtw_loop coords t t in
  (∀ p q, (0 ≤ taxicab p q)%Qc) ∧
  mget C 2 2 = Fin 0%Qc ∧ mget C 1 2 = Fin (Qc_of_Z 5) ∧
  ¬ cost_le (mget C 1 2) (mget C 2 2) ∧
  ¬ cost_le (mget Cs 1 2) (mget Cs 2 2).
Proof.
  split; [apply taxicab_nonneg|].
  split_and!; [by apply (bool_decide_unpack _)..| |]; by vm_compute.
Qed.

(** C3, amended. Under a non-negative point-distance, in both engines
    every interior cell is at least the minimum of its three neighbours:
    [C[i][j] >= min(C[i][j-1], C[i-1][j-1], C[i-1][j])]. *)
Theorem cost_at_least_min_neighbour
    (eucl_dist : point → point → Qc)
    (great_circle_distance : Qc → Qc → Qc → Qc → Qc)
    (t0 t1 : list point) (i j : nat) :
  (∀ p q, (0 ≤ eucl_dist p q)%Qc) →
  (∀ x y x' y', (0 ≤ great_circle_distance x y x' y')%Qc) →
  1 ≤ i ≤ length t0 → 1 ≤ j ≤ length t1 →
  let C := st_C (e_dtw_loop eucl_dist t0 t1) in
  let Cs := s_dtw_loop great_circle_distance t0 t1 in
  cost_le (py_min3 (mget C i (j - 1)) (mget C (i - 1) (j - 1)) (mget C (i - 1) j))
          (mget C i j) ∧
  cost_le (py_min3 (mget Cs i (j - 1)) (mget Cs (i - 1) (j - 1)) (mget Cs (i - 1) j))
          (mget Cs i j).
Proof.
  intros He Hs Hi Hj C Cs.
  destruct i as [|i]; [lia|]. destruct j as [|j]; [lia|].
  rewrite !Nat.sub_succ, !Nat.sub_0_r. split.
  - apply (filled_ge_min _ t0 t1 _ (e_dtw_loop_filled eucl_dist t0 t1)); [done|lia..].
  - unfold Cs. rewrite s_dtw_loop_as_e_dtw.
    apply (filled_ge_min _ t0 t1 _ (e_dtw_loop_filled _ t0 t1)); [|lia..].
    intros p q. apply Hs.
Qed.

Lemma cost_at_least_min_neighbour_witness :
  let t := [pt 0 0; pt 5 0] in
  let C := st_C (e_dtw_loop taxicab t t) in
  let Cs := s_dtw_loop coords t t in
  cost_le (py_min3 (mget C 2 1) (mget C 1 1) (mget C 1 2)) (mget C 2 2) ∧
  cost_le (py_min3 (mget Cs 2 1) (mget Cs 1 1) (mget Cs 1 2)) (mget Cs 2 2).
Proof.
  apply (cost_at_least_min_neighbour taxicab coords
           [pt 0 0; pt 5 0] [pt 0 0; pt 5 0] 2 2).
  - apply taxicab_nonneg.
  - intros x y x' y'. apply taxicab_nonneg.
  - simpl; lia.
  - simpl; lia.
Defined.

(** ** The backpointer matrix and the path of [e_dtw] *)

Lemma e_dtw_wf_backptrs eucl_dist (t0 t1 : list point) :
  wf_backptrs (length t0) (length t1) (e_dtw eucl_dist t0 t1).2.
Proof.
  apply (filled_wf_backptrs eucl_dist t0 t1), e_dtw_loop_filled.
Qed.

(** ** The two engines return the same scalar *)

(** C6. When the planar point-distance and the great-circle distance
    return the same number on every pair of points the engines forward to
    them, [s_dtw] fills the same cost matrix as [e_dtw], and the scalar
    returned by [s_dtw] is the first component of the result of [e_dtw]:
    the backpointers play no part in it. *)
Theorem scalar_agreement
    (eucl_dist : point → point → Qc)
    (great_circle_distance : Qc → Qc → Qc → Qc → Qc)
    (t0 t1 : list point) :
  (∀ p q, p ∈ t0 → q ∈ t1 →
     eucl_dist p q = great_circle_distance p.1 p.2 q.1 q.2) →
  st_C (e_dtw_loop eucl_dist t0 t1) = s_dtw_loop great_circle_distance t0 t1 ∧
  (e_dtw eucl_dist t0 t1).1.1 = s_dtw great_circle_distance t0 t1.
Proof.
  intros Hagree.
  assert (st_C (e_dtw_loop eucl_dist t0 t1) = s_dtw_loop great_circle_distance t0 t1)
    as Heq by (by apply loop_agree).
  split; [done|]. unfold e_dtw, s_dtw; simpl. by rewrite Heq.
Qed.

Lemma scalar_agreement_witness :
  let t0 := [pt 0 0; pt 1 0; pt 2 0] in
  let t1 := [pt 0 0; pt 0 1; pt 0 2] in
  st_C (e_dtw_loop taxicab t0 t1) = s_dtw_loop coords t0 t1 ∧
  (e_dtw taxicab t0 t1).1.1 = s_dtw coords t0 t1.
Proof.
  apply (scalar_agreement taxicab coords
           [pt 0 0; pt 1 0; pt 2 0] [pt 0 0; pt 0 1; pt 0 2]).
  intros [x y] [x' y'] _ _. reflexivity.
Defined.

(** ** The identity case *)

(** C4, as stated, fails on a trajectory with a repeated point: on
    [t = [(0,0), (0,0)]] the distance is 0 but the three candidates of
    cell [(2,2)] tie at 0, left is recorded, and the path goes through
    [(1,0)].  The taxicab distance is a metric. *)
Lemma repeated_point_leaves_diagonal :
  let t := [pt 0 0; pt 0 0] in
  ((∀ p q, (0 ≤ taxicab p q)%Qc) ∧ (∀ p, taxicab p p = 0%Qc) ∧
   (∀ p q, taxicab p q = 0%Qc → p = q) ∧ (∀ p q, taxicab p q = taxicab q p) ∧
   (∀ p q r, (taxicab p r ≤ taxicab p q + taxicab q r)%Qc)) ∧
  (e_dtw taxicab t t).1.1 = Fin 0%Qc ∧
  e_extract_dtw_warping_path 3 (e_dtw taxicab t t).2 =
    Returns [(0, 0)%Z; (1, 0)%Z; (1, 1)%Z] ∧
  ∀ fuel, e_extract_dtw_warping_path fuel (e_dtw taxicab t t).2 ≠
            Returns [(0, 0)%Z; (1, 1)%Z].
Proof.
  split_and!.
  - apply taxicab_nonneg.
  - apply taxicab_refl.
  - apply taxicab_sep.
  - apply taxicab_sym.
  - apply taxicab_triangle.
  - by apply (bool_decide_unpack _).
  - by vm_compute.
  - intros [|[|[|fuel]]]; by vm_compute.
Qed.

(** C4, amended. For a non-empty trajectory [t] and a point-distance that
    is non-negative and zero on equal points, [e_dtw t t] returns the
    distance 0; when moreover the distance is zero on equal points only
    and no two consecutive points of [t] are equal, the reconstructed
    path is the diagonal [(0,0), (1,1), ..., (n-1,n-1)]. *)
Theorem identity_case
    (eucl_dist : point → point → Qc) (t : list point) (fuel : nat) :
  t ≠ [] →
  (∀ p q, (0 ≤ eucl_dist p q)%Qc) →
  (∀ p, eucl_dist p p = 0%Qc) →
  length t ≤ fuel →
  (e_dtw eucl_dist t t).1.1 = Fin 0%Qc ∧
  ((∀ p q, eucl_dist p q = 0%Qc → p = q) →
   (∀ k p q, t !! k = Some p → t !! S k = Some q → p ≠ q) →
   e_extract_dtw_warping_path fuel (e_dtw eucl_dist t t).2 =
     Returns (diagonal (length t))).
Proof.
  intros Ht Hnonneg Hrefl Hfuel.
  pose proof (e_dtw_loop_filled eucl_dist t t) as Hfilled.
  split.
  - by apply (identity_diag_zero eucl_dist t _ Hfilled Hnonneg Hrefl).
  - intros Hsep Hdistinct. unfold e_extract_dtw_warping_path, e_dtw; simpl.
    destruct Hfilled as (HC & HW & Hrest).
    destruct (mget_lookup (length t) (length t) _ 0 0 HW) as (row0 & Hrow0 & _);
      [by destruct t; simpl; [|lia]..|].
    change 0%Z with (Z.of_nat 0). rewrite py_index_nat, Hrow0.
    rewrite (proj1 HW), (proj2 HW _ _ Hrow0).
    assert (0 < length t) as Hlen by (destruct t; simpl; [done|lia]).
    replace (Z.of_nat (length t) - 1)%Z with (Z.of_nat (length t - 1)) by lia.
    rewrite (identity_walk eucl_dist t _ (conj HC (conj HW Hrest))
               Hnonneg Hrefl Hsep Hdistinct) by lia.
    rewrite app_nil_r. do 2 f_equal. lia.
Qed.

Lemma identity_case_witness :
  let t := [pt 0 0; pt 1 0; pt 0 0] in
  (e_dtw taxicab t t).1.1 = Fin 0%Qc ∧
  e_extract_dtw_warping_path 3 (e_dtw taxicab t t).2 = Returns (diagonal 3).
Proof.
  destruct (identity_case taxicab [pt 0 0; pt 1 0; pt 0 0] 3) as [Hzero Hpath].
  - done.
  - apply taxicab_nonneg.
  - apply taxicab_refl.
  - simpl; lia.
  - split; [exact Hzero|]. apply Hpath; [apply taxicab_sep|].
    intros [|[|k]] p q Hp Hq; simplify_eq/=; by apply (bool_decide_unpack _).
Defined.

(** ** The reconstruction on a malformed backpointer matrix *)

(** A set of cells that the backpointers never leave and that does not hold
    the origin: the loop started inside never ends. *)
Lemma walk_closed (W : matrix backptr) (P : Z * Z → Prop) :
  (∀ a b, P (a, b) →
     (a, b) ≠ (0, 0)%Z ∧
     ∃ row next, py_index W a = Some row ∧ py_index row b = Some (Some next) ∧ P next) →
  ∀ fuel p path, P p → walk fuel W (Some p) path = OutOfFuel.
Proof.
  intros Hclosed. induction fuel as [|fuel IH]; intros [a b] path Hp; [done|].
  destruct (Hclosed a b Hp) as (Hne & row & next & Hrow & Hnext & Hin).
  rewrite (walk_step _ _ _ _ row (Some next)) by done. by apply IH.
Qed.

(** C2, as stated, fails: the matrix [[[None, (0,1)]]] has one row and two
    columns, the walk starts at [(0,1)] and the backpointer of that cell is
    [(0,1)] again; the chain never reaches [(0,0)], every index is in
    bounds, and the loop raises no error however many steps it is
    given. *)
Lemma cyclic_backpointers_raise_nothing :
  let W := [[None; Some (0, 1)%Z]] in
  (¬ ∃ fuel e, e_extract_dtw_warping_path fuel W = Raises e) ∧
  (¬ ∃ fuel path, e_extract_dtw_warping_path fuel W = Returns path).
Proof.
  assert (∀ fuel, e_extract_dtw_warping_path fuel [[None; Some (0, 1)%Z]] = OutOfFuel)
    as Hloop.
  { intros fuel. unfold e_extract_dtw_warping_path; simpl.
    apply (walk_closed _ (λ p, p = (0, 1)%Z)); [|done].
    intros a b [= -> ->]. split; [done|].
    by exists [None; Some (0, 1)%Z], (0, 1)%Z. }
  split; intros (fuel & r & Hr); by rewrite Hloop in Hr.
Qed.

(** C2, amended. The reconstruction has no check of its own: it raises
    the [IndexError] of the list access when [W] is empty, and when the
    pair it is about to follow has a row index at or beyond [len(W)] or
    below [-len(W)], or a column index outside the same range for the
    row read; it raises [TypeError] when the cell read held [None].  The
    number of steps is not bounded: on a set of in-range cells that the
    backpointers never leave the loop does not end. *)
Theorem reconstruction_failure_modes
    (W : matrix backptr) (a b : Z) (path : list (Z * Z)) (fuel : nat)
    (P : Z * Z → Prop) :
  (a, b) ≠ (0, 0)%Z →
  e_extract_dtw_warping_path fuel [] = Raises IndexError ∧
  ((Z.of_nat (length W) ≤ a ∨ a < - Z.of_nat (length W))%Z →
     walk (S fuel) W (Some (a, b)) path = Raises IndexError) ∧
  (∀ row, py_index W a = Some row →
     (Z.of_nat (length row) ≤ b ∨ b < - Z.of_nat (length row))%Z →
     walk (S fuel) W (Some (a, b)) path = Raises IndexError) ∧
  walk (S fuel) W None path = Raises TypeError ∧
  ((∀ a b, P (a, b) →
      (a, b) ≠ (0, 0)%Z ∧
      ∃ row next,
        py_index W a = Some row ∧ py_index row b = Some (Some next) ∧ P next) →
   P (a, b) → walk fuel W (Some (a, b)) path = OutOfFuel).
Proof.
  intros Hne. split_and!.
  - reflexivity.
  - intros Ha. simpl. rewrite bool_decide_eq_false_2 by congruence.
    by rewrite py_index_out_of_range.
  - intros row Hrow Hb. simpl. rewrite bool_decide_eq_false_2 by congruence.
    by rewrite Hrow, py_index_out_of_range.
  - reflexivity.
  - intros Hclosed Hp. by apply (walk_closed W P).
Qed.

Lemma reconstruction_failure_modes_witness :
  let W := [[None; Some (0, 1)%Z]] in
  e_extract_dtw_warping_path 7 [] = Raises IndexError ∧
  walk 8 W (Some (1, 0)%Z) [] = Raises IndexError ∧
  walk 8 W (Some (0, 2)%Z) [] = Raises IndexError ∧
  walk 8 W None [] = Raises TypeError ∧
  walk 7 W (Some (0, 1)%Z) [] = OutOfFuel.
Proof.
  pose proof (reconstruction_failure_modes [[None; Some (0, 1)%Z]] 1 0 [] 7
                (λ _, False) ltac:(done)) as (Hempty & Hrow & _ & Hnone & _).
  pose proof (reconstruction_failure_modes [[None; Some (0, 1)%Z]] 0 2 [] 7
                (λ _, False) ltac:(done)) as (_ & _ & Hcol & _).
  pose proof (reconstruction_failure_modes [[None; Some (0, 1)%Z]] 0 1 [] 7
                (λ p, p = (0, 1)%Z) ltac:(done)) as (_ & _ & _ & _ & Hcycle).
  split_and!.
  - exact Hempty.
  - apply Hrow. simpl. lia.
  - apply (Hcol [None; Some (0, 1)%Z]); [done|simpl; lia].
  - exact Hnone.
  - apply Hcycle; [|done].
    intros a b [= -> ->]. split; [done|].
    by exists [None; Some (0, 1)%Z], (0, 1)%Z.
Defined.

(** * Further properties of the engines *)

(** ** The matrices [e_dtw] returns *)

Lemma interior_shape (C : matrix cost) n m :
  has_shape (n + 1) (m + 1) C → has_shape n m (interior C).
Proof.
  intros [Hlen Hrows]. unfold interior. split.
  - rewrite length_fmap, length_drop. lia.
  - intros i row. rewrite list_lookup_fmap, lookup_drop.
    destruct (C !! (1 + i)) as [r|] eqn:Hr; simpl; [|done].
    intros [= <-]. rewrite length_drop, (Hrows _ _ Hr). lia.
Qed.

Lemma interior_get (C : matrix cost) n m i j :
  has_shape (n + 1) (m + 1) C → i < n → j < m →
  mget (interior C) i j = mget C (S i) (S j).
Proof.
  intros HC Hi Hj.
  destruct (mget_lookup (n + 1) (m + 1) C (S i) (S j) HC) as (row & Hrow & Hcell);
    [lia..|].
  unfold mget at 1. unfold interior.
  erewrite (list_lookup_total_correct _ i (drop 1 row)).
  - apply list_lookup_total_correct. by rewrite lookup_drop.
  - rewrite list_lookup_fmap, lookup_drop. change (1 + i) with (S i). by rewrite Hrow.
Qed.

(** ** The minimum of three costs *)

Lemma py_min3_le a b c :
  cost_le (py_min3 a b c) a ∧ cost_le (py_min3 a b c) b ∧ cost_le (py_min3 a b c) c.
Proof. rewrite py_min3_argmin. apply argmin3_min. Qed.

Lemma py_min3_cases a b c :
  py_min3 a b c = a ∨ py_min3 a b c = b ∨ py_min3 a b c = c.
Proof. rewrite py_min3_argmin. apply argmin3_cases. Qed.

(** The three arguments may be read from the other end: the value of the
    minimum is the same. *)
Lemma py_min3_swap a b c : py_min3 a b c = py_min3 c b a.
Proof.
  destruct (py_min3_le a b c) as (Ha & Hb & Hc).
  destruct (py_min3_le c b a) as (Hc' & Hb' & Ha').
  apply cost_le_antisym.
  - destruct (py_min3_cases c b a) as [-> | [-> | ->]]; done.
  - destruct (py_min3_cases a b c) as [-> | [-> | ->]]; done.
Qed.

Lemma py_min3_mono a b c a' b' c' :
  cost_le a a' → cost_le b b' → cost_le c c' →
  cost_le (py_min3 a b c) (py_min3 a' b' c').
Proof.
  intros Ha Hb Hc. destruct (py_min3_le a b c) as (Ha0 & Hb0 & Hc0).
  destruct (py_min3_cases a' b' c') as [-> | [-> | ->]];
    eauto using cost_le_trans.
Qed.

Lemma cost_add_mono d d' c c' :
  (d ≤ d')%Qc → cost_le c c' → cost_le (cost_add (Fin d) c) (cost_add (Fin d') c').
Proof.
  intros Hd Hc. destruct c as [x|], c' as [y|]; simpl in *; try done.
  by apply Qcplus_le_compat.
Qed.

(** ** The cost matrix solves the recurrence *)

Lemma filled_recurrence eucl_dist (t0 t1 : list point) st :
  filled eucl_dist t0 t1 st →
  dtw_recurrence eucl_dist t0 t1 (length t0) (length t1) (mget (st_C st)).
Proof.
  intros Hfilled.
  destruct (filled_boundary eucl_dist t0 t1 st Hfilled) as (H00 & Hcol & Hrow).
  split_and!; [done..|].
  intros i j Hi Hj.
  by rewrite (filled_value eucl_dist t0 t1 st Hfilled), py_min3_argmin.
Qed.

(** Two solutions of the recurrence are the same on the cells of the
    matrix, also when the trajectories differ beyond the range. *)
Lemma dtw_recurrence_unique dist (t0 t1 t0' t1' : list point) n0 n1 f g :
  (∀ i, i < n0 → t0 !! i = t0' !! i) →
  (∀ j, j < n1 → t1 !! j = t1' !! j) →
  dtw_recurrence dist t0 t1 n0 n1 f →
  dtw_recurrence dist t0' t1' n0 n1 g →
  ∀ i j, i ≤ n0 → j ≤ n1 → f i j = g i j.
Proof.
  intros Ht0 Ht1 (Hf00 & Hfcol & Hfrow & Hf) (Hg00 & Hgcol & Hgrow & Hg).
  induction i as [|i IHi]; intros j; induction j as [|j IHj]; intros Hi Hj.
  - by rewrite Hf00, Hg00.
  - by rewrite Hfrow, Hgrow by lia.
  - by rewrite Hfcol, Hgcol by lia.
  - rewrite Hf, Hg by lia.
    rewrite !list_lookup_total_alt, Ht0, Ht1 by lia.
    rewrite IHj, !IHi by lia. done.
Qed.

(** The solution for the two trajectories swapped is the transpose, when
    the point-distance is symmetric. *)
Lemma dtw_recurrence_transpose dist (t0 t1 : list point) n0 n1 f :
  (∀ p q, dist p q = dist q p) →
  dtw_recurrence dist t0 t1 n0 n1 f →
  dtw_recurrence dist t1 t0 n1 n0 (λ j i, f i j).
Proof.
  intros Hsym (H00 & Hcol & Hrow & Hrec). split_and!; [done..|].
  intros j i Hj Hi. rewrite Hrec by done.
  by rewrite (Hsym (t1 !!! j)), py_min3_swap.
Qed.

(** ** Warping paths and their cost *)

Lemma path_cost_app dist (t0 t1 : list point) l1 l2 :
  path_cost dist t0 t1 (l1 ++ l2) =
    (path_cost dist t0 t1 l1 + path_cost dist t0 t1 l2)%Qc.
Proof.
  induction l1 as [|x l1 IH]; simpl.
  - by rewrite Qcplus_0_l.
  - unfold path_cost in *. simpl. rewrite IH. ring.
Qed.

Lemma path_cost_reverse dist (t0 t1 : list point) l :
  path_cost dist t0 t1 (reverse l) = path_cost dist t0 t1 l.
Proof.
  induction l as [|x l IH]; [done|].
  rewrite reverse_cons, path_cost_app, IH.
  change (x :: l) with ([x] ++ l). rewrite path_cost_app. ring.
Qed.

Lemma consecutive_snoc_inv {A} (R : A → A → Prop) (l : list A) (x : A) :
  consecutive R (l ++ [x]) →
  consecutive R l ∧ ∀ y, last l = Some y → R y x.
Proof.
  intros Hl. split.
  - intros k p q Hp Hq. apply (Hl k); by apply lookup_app_l_Some.
  - intros y Hy. rewrite last_lookup in Hy.
    assert (l ≠ []) as Hne by (intros ->; done).
    assert (0 < length l) by (destruct l; simpl; [done|lia]).
    apply (Hl (pred (length l))).
    + by apply lookup_app_l_Some.
    + replace (S (pred (length l))) with (length l + 0) by lia.
      by rewrite lookup_app_r, Nat.add_comm, Nat.add_sub by lia.
Qed.

Lemma consecutive_snoc {A} (R : A → A → Prop) (l : list A) (x : A) :
  consecutive R l → (∀ y, last l = Some y → R y x) → consecutive R (l ++ [x]).
Proof.
  intros Hl Hx k p q Hp Hq.
  destruct (decide (S k < length l)) as [Hk|Hk].
  - rewrite lookup_app_l in Hp, Hq by lia. by apply (Hl k).
  - assert (S k = length l) as Hlen.
    { apply lookup_lt_Some in Hq. rewrite length_app in Hq. simpl in Hq. lia. }
    rewrite lookup_app_l in Hp by lia.
    rewrite Hlen, lookup_app_r in Hq by lia.
    rewrite Nat.sub_diag in Hq. injection Hq as <-.
    apply Hx. rewrite last_lookup. by replace (pred (length l)) with k by lia.
Qed.

Section LowerBound.
Variable eucl_dist : point → point → Qc.
Variables t0 t1 : list point.
Variable st : dtw_state.
Hypothesis Hfilled : filled eucl_dist t0 t1 st.

(** The first cell holds the distance of the first two points. *)
Lemma filled_first_cell :
  0 < length t0 → 0 < length t1 →
  mget (st_C st) 1 1 = Fin (eucl_dist (t0 !!! 0) (t1 !!! 0)).
Proof.
  intros H0 H1.
  destruct (filled_boundary eucl_dist t0 t1 st Hfilled) as (H00 & Hcol & Hrow).
  rewrite (filled_value eucl_dist t0 t1 st Hfilled) by done.
  rewrite H00, Hcol, Hrow by lia. simpl. by rewrite Qcplus_0_r.
Qed.

(** A cell is at most the distance of its two points added to any of its
    three neighbours. *)
Lemma filled_le_neighbour i j i' j' :
  i < length t0 → j < length t1 →
  (i' = S i ∧ S j' = S j) ∨ (S i' = S i ∧ S j' = S j) ∨ (S i' = S i ∧ j' = S j) →
  cost_le (mget (st_C st) (S i) (S j))
          (cost_add (Fin (eucl_dist (t0 !!! i) (t1 !!! j))) (mget (st_C st) i' j')).
Proof.
  intros Hi Hj Hstep.
  rewrite (filled_value eucl_dist t0 t1 st Hfilled) by done.
  apply cost_add_mono; [apply Qcle_refl|].
  destruct (argmin3_min (mget (st_C st) (S i) j) (mget (st_C st) i j)
              (mget (st_C st) i (S j))) as (Hl & Hd & Hu).
  destruct Hstep as [[-> [= ->]] | [[[= ->] [= ->]] | [[= ->] ->]]]; done.
Qed.

(** No warping path costs less than the cell it ends in. *)
Lemma filled_lower_bound path : ∀ a b,
  warping_path a b path →
  (0 ≤ a ∧ 0 ≤ b)%Z ∧
  ((a < Z.of_nat (length t0))%Z → (b < Z.of_nat (length t1))%Z →
   cost_le (mget (st_C st) (S (Z.to_nat a)) (S (Z.to_nat b)))
           (Fin (path_cost eucl_dist t0 t1 path))).
Proof.
  induction path as [|[a b] path IH] using rev_ind; intros a0 b0 (Hhead & Hlast & Hsteps).
  { done. }
  rewrite last_snoc in Hlast. injection Hlast as <- <-.
  apply consecutive_snoc_inv in Hsteps as [Hsteps Hstep].
  destruct (last path) as [[a' b']|] eqn:Hlast'.
  - assert (path ≠ []) as Hne by (intros ->; done).
    destruct (IH a' b') as [Hnonneg Hbound].
    { split_and!; [|done..]. destruct path; [done|]. done. }
    specialize (Hstep _ eq_refl). unfold forward_step in Hstep; simpl in Hstep.
    split; [lia|]. intros Ha Hb.
    rewrite path_cost_app. unfold path_cost at 2; simpl. rewrite Qcplus_0_r.
    eapply cost_le_trans.
    + apply (filled_le_neighbour _ _ (S (Z.to_nat a')) (S (Z.to_nat b'))); lia.
    + rewrite Qcplus_comm.
      apply (cost_add_mono _ _ _ (Fin _)); [apply Qcle_refl|].
      apply Hbound; lia.
  - apply last_None in Hlast' as ->. simpl in Hhead. injection Hhead as -> ->.
    split; [lia|]. intros Ha Hb. change (Z.to_nat 0) with 0.
    rewrite filled_first_cell by lia.
    unfold path_cost; simpl. rewrite Qcplus_0_r. apply Qcle_refl.
Qed.

End LowerBound.

(** ** What the reconstruction returns, on any matrix *)

(** Whenever the loop returns, what it appended is a chain of backpointers
    from the pair it started at down to [(0,0)]. *)
Lemma walk_links fuel W : ∀ idxs acc path,
  walk fuel W idxs acc = Returns path →
  ∃ p seg, idxs = Some p ∧ path = reverse (acc ++ seg) ∧ links W p seg.
Proof.
  induction fuel as [|fuel IH]; intros idxs acc path Hwalk; [done|].
  simpl in Hwalk. case_bool_decide as Horigin.
  - injection Hwalk as <-. exists (0, 0)%Z, [(0, 0)%Z].
    split_and!; [done..|constructor].
  - destruct idxs as [[a b]|]; [|done].
    destruct (py_index W a) as [row|] eqn:Hrow; [|done].
    destruct (py_index row b) as [next|] eqn:Hnext; [|done].
    apply IH in Hwalk as (p & seg & -> & -> & Hseg).
    exists (a, b), ((a, b) :: seg). split_and!.
    + done.
    + by rewrite <-app_assoc.
    + apply links_step with row p; [congruence|done..].
Qed.

Lemma links_head W p seg : links W p seg → head seg = Some p.
Proof. by destruct 1. Qed.

Lemma links_last W p seg : links W p seg → last seg = Some (0, 0)%Z.
Proof.
  induction 1 as [|a b row next seg Hne Hrow Hnext Hseg IH]; [done|].
  destruct Hseg; by rewrite last_cons_cons in *.
Qed.

(** [(0,0)] is the last pair of the chain and occurs nowhere else. *)
Lemma links_origin_last W p seg k :
  links W p seg → seg !! k = Some (0, 0)%Z → S k = length seg.
Proof.
  intros Hseg. revert k.
  induction Hseg as [|a b row next seg Hne Hrow Hnext Hseg IH]; intros k Hk.
  - destruct k; [done|]. by destruct k.
  - destruct k as [|k]; simpl in *; [congruence|]. f_equal. by apply IH.
Qed.

(** Two neighbours of the chain: the second is what the cell of the first
    holds. *)
Lemma links_consecutive W p seg k a b next :
  links W p seg → seg !! k = Some (a, b) → seg !! S k = Some next →
  ∃ row, py_index W a = Some row ∧ py_index row b = Some (Some next).
Proof.
  intros Hseg. revert k.
  induction Hseg as [|a' b' row next' seg Hne Hrow Hnext Hseg IH]; intros k Hk Hk'.
  - by destruct k.
  - destruct k as [|k]; simpl in *.
    + injection Hk as -> ->. apply links_head in Hseg.
      rewrite head_lookup in Hseg. exists row. split; [done|]. congruence.
    + by apply (IH k).
Qed.

(** ** The reconstruction on a matrix of decreasing backpointers *)

Lemma wf_backptrs_decreasing n0 n1 W :
  wf_backptrs n0 n1 W → decreasing_backptrs n0 n1 W.
Proof.
  intros [Hshape Hcells]. split; [done|].
  intros i j Hi Hj Hne. specialize (Hcells i j Hi Hj).
  case_decide; [done|]. destruct Hcells as (i' & j' & Hcell & Hstep).
  exists i', j'. unfold unit_step_back in Hstep. split_and!; [done|lia..].
Qed.

Section Decreasing.
Variables n0 n1 : nat.
Variable W : matrix backptr.
Hypothesis HW : decreasing_backptrs n0 n1 W.

Lemma walk_follows fuel : ∀ i j path,
  i < n0 → j < n1 → i + j < fuel →
  ∃ seg,
    walk fuel W (Some (Z.of_nat i, Z.of_nat j)) path = Returns (reverse (path ++ seg)) ∧
    follows W i j seg ∧
    length seg ≤ i + j + 1.
Proof.
  destruct HW as [Hshape Hcells].
  induction fuel as [|fuel IH]; intros i j path Hi Hj Hfuel; [lia|].
  destruct (decide (i = 0 ∧ j = 0)) as [[-> ->]|Hne].
  - rewrite walk_origin.
    exists [(0, 0)%Z]. split_and!; [done|constructor|simpl; lia].
  - destruct (Hcells i j Hi Hj Hne) as (i' & j' & Hcell & Hi' & Hj' & Hsum).
    destruct (mget_lookup n0 n1 W i j) as (row & Hrow & Hget); [done..|].
    rewrite Hcell in Hget.
    rewrite (walk_step _ _ _ _ row (Some (Z.of_nat i', Z.of_nat j')));
      [|intros [= ? ?]; lia|by rewrite py_index_nat..].
    destruct (IH i' j' (path ++ [(Z.of_nat i, Z.of_nat j)])) as (seg & Hwalk & Hseg & Hlen);
      [lia..|].
    exists ((Z.of_nat i, Z.of_nat j) :: seg). split_and!.
    + by rewrite Hwalk, <-app_assoc.
    + by apply follows_step with i' j'.
    + simpl. lia.
Qed.

(** The cells of the chain are cells of the matrix. *)
Lemma follows_in_range i j seg :
  follows W i j seg → i < n0 → j < n1 →
  ∀ a b, (a, b) ∈ seg →
    (0 ≤ a < Z.of_nat n0)%Z ∧ (0 ≤ b < Z.of_nat n1)%Z.
Proof.
  destruct HW as [Hshape Hcells].
  induction 1 as [|i j i' j' seg Hne Hcell Hseg IH]; intros Hi Hj a b Hin.
  - apply list_elem_of_singleton in Hin as [= -> ->]. lia.
  - destruct (Hcells i j Hi Hj Hne) as (i'' & j'' & Hcell' & Hi' & Hj' & _).
    rewrite Hcell in Hcell'. injection Hcell' as Hi'' Hj''.
    apply Nat2Z.inj in Hi'', Hj''. subst i'' j''.
    apply elem_of_cons in Hin as [[= -> ->]|Hin]; [lia|].
    by apply IH.
Qed.

End Decreasing.

Lemma follows_head W i j seg :
  follows W i j seg → head seg = Some (Z.of_nat i, Z.of_nat j).
Proof. by destruct 1. Qed.

Lemma follows_last W i j seg : follows W i j seg → last seg = Some (0, 0)%Z.
Proof.
  induction 1 as [|i j i' j' seg Hne Hcell Hseg IH]; [done|].
  destruct Hseg; by rewrite last_cons_cons in *.
Qed.

(** ** The backpointers point to the cost that was added *)

Section Attained.
Variable eucl_dist : point → point → Qc.
Variables t0 t1 : list point.
Variable st : dtw_state.
Hypothesis Hfilled : filled eucl_dist t0 t1 st.

(** Off the origin, the cost of a cell is the distance of its two points
    added to the cost of the cell its backpointer names. *)
Lemma filled_backptr_cost i j i' j' :
  i < length t0 → j < length t1 → ¬ (i = 0 ∧ j = 0) →
  mget (st_W st) i j = Some (Z.of_nat i', Z.of_nat j') →
  mget (st_C st) (S i) (S j) =
    cost_add (Fin (eucl_dist (t0 !!! i) (t1 !!! j))) (mget (st_C st) (S i') (S j')).
Proof.
  intros Hi Hj Hne.
  rewrite (filled_backptr eucl_dist t0 t1 st Hfilled) by done.
  rewrite (filled_value eucl_dist t0 t1 st Hfilled) by done.
  pose proof (argmin3_lt (mget (st_C st) (S i) j) (mget (st_C st) i j)
                (mget (st_C st) i (S j))) as Hk.
  unfold backptr_of.
  destruct (bool_decide (S i = 1) && bool_decide (S j = 1)) eqn:Horigin.
  { apply andb_prop in Horigin as [Hi0%bool_decide_eq_true Hj0%bool_decide_eq_true]. lia. }
  destruct (argmin _) as [|[|[|k]]]; [..|lia]; simpl; intros [= Hi' Hj'].
  - by replace (S i') with (S i) by lia; replace (S j') with j by lia.
  - by replace (S i') with i by lia; replace (S j') with j by lia.
  - by replace (S i') with i by lia; replace (S j') with (S j) by lia.
Qed.

(** The chain of backpointers from a cell costs what the cell holds. *)
Lemma follows_cost i j seg :
  follows (st_W st) i j seg → i < length t0 → j < length t1 →
  mget (st_C st) (S i) (S j) = Fin (path_cost eucl_dist t0 t1 seg).
Proof.
  pose proof (filled_wf_backptrs eucl_dist t0 t1 st Hfilled) as [_ Hcells].
  induction 1 as [|i j i' j' seg Hne Hcell Hseg IH]; intros Hi Hj.
  - rewrite (filled_first_cell eucl_dist t0 t1 st Hfilled) by done.
    unfold path_cost; simpl. by rewrite Qcplus_0_r.
  - rewrite (filled_backptr_cost i j i' j') by done.
    specialize (Hcells i j Hi Hj). case_decide; [done|].
    destruct Hcells as (i'' & j'' & Hcell' & Hstep).
    rewrite Hcell in Hcell'. injection Hcell' as Hi'' Hj''.
    apply Nat2Z.inj in Hi'', Hj''. subst i'' j''. unfold unit_step_back in Hstep.
    rewrite IH by lia. unfold path_cost; simpl. by rewrite !Nat2Z.id.
Qed.

End Attained.

(** ** The shape of a warping path *)

(** Its pairs lie between [(0,0)] and its end, it has a pair for every
    row index and for every column index up to its end, and it is longer
    than its end is far. *)
Lemma warping_path_shape path : ∀ a b,
  warping_path a b path →
  (0 ≤ a ∧ 0 ≤ b)%Z ∧
  (∀ x y, (x, y) ∈ path → (0 ≤ x ≤ a)%Z ∧ (0 ≤ y ≤ b)%Z) ∧
  (∀ x, (0 ≤ x ≤ a)%Z → ∃ y, (x, y) ∈ path) ∧
  (∀ y, (0 ≤ y ≤ b)%Z → ∃ x, (x, y) ∈ path) ∧
  (a < Z.of_nat (length path))%Z ∧ (b < Z.of_nat (length path))%Z ∧
  (Z.of_nat (length path) ≤ a + b + 1)%Z.
Proof.
  induction path as [|[a b] path IH] using rev_ind; intros a0 b0 (Hhead & Hlast & Hsteps).
  { done. }
  rewrite last_snoc in Hlast. injection Hlast as <- <-.
  apply consecutive_snoc_inv in Hsteps as [Hsteps Hstep].
  destruct (last path) as [[a' b']|] eqn:Hlast'.
  - destruct (IH a' b') as (Hnonneg & Hin & Hrows & Hcols & Hla & Hlb & Hlen).
    { split_and!; [|done..]. destruct path; [done|]. done. }
    specialize (Hstep _ eq_refl). unfold forward_step in Hstep; simpl in Hstep.
    rewrite length_app; simpl. split_and!; try lia.
    + intros x y [Hxy|Hxy%list_elem_of_singleton]%elem_of_app.
      * apply Hin in Hxy. lia.
      * injection Hxy as -> ->. lia.
    + intros x Hx. destruct (decide (x ≤ a')%Z) as [Hle|Hgt].
      * destruct (Hrows x) as [y Hy]; [lia|]. exists y. apply elem_of_app. by left.
      * exists b. apply elem_of_app. right. apply list_elem_of_singleton.
        f_equal. lia.
    + intros y Hy. destruct (decide (y ≤ b')%Z) as [Hle|Hgt].
      * destruct (Hcols y) as [x Hx]; [lia|]. exists x. apply elem_of_app. by left.
      * exists a. apply elem_of_app. right. apply list_elem_of_singleton.
        f_equal. lia.
  - apply last_None in Hlast' as ->. simpl in Hhead. injection Hhead as -> ->.
    simpl. split_and!; try lia.
    + intros x y Hxy%list_elem_of_singleton. injection Hxy as -> ->. lia.
    + intros x Hx. exists 0%Z. apply list_elem_of_singleton. f_equal. lia.
    + intros y Hy. exists 0%Z. apply list_elem_of_singleton. f_equal. lia.
Qed.

(** ** The path reconstructed from the result of [e_dtw] *)

Lemma e_dtw_returned_shape eucl_dist (t0 t1 : list point) :
  has_shape (length t0) (length t1) (e_dtw eucl_dist t0 t1).1.2 ∧
  has_shape (length t0) (length t1) (e_dtw eucl_dist t0 t1).2.
Proof.
  destruct (e_dtw_loop_filled eucl_dist t0 t1) as (HC & HW & _).
  split; [by apply interior_shape|done].
Qed.

Lemma e_dtw_returned_get eucl_dist (t0 t1 : list point) i j :
  i < length t0 → j < length t1 →
  mget (e_dtw eucl_dist t0 t1).1.2 i j =
    mget (st_C (e_dtw_loop eucl_dist t0 t1)) (S i) (S j).
Proof.
  intros Hi Hj. destruct (e_dtw_loop_filled eucl_dist t0 t1) as (HC & _).
  by apply (interior_get _ (length t0) (length t1)).
Qed.

(** The path is the chain of backpointers from the last cell, read
    backwards, and it is a warping path to that cell. *)
Lemma e_dtw_path eucl_dist (t0 t1 : list point) fuel :
  t0 ≠ [] → t1 ≠ [] → length t0 + length t1 ≤ S fuel →
  ∃ seg,
    e_extract_dtw_warping_path fuel (e_dtw eucl_dist t0 t1).2 = Returns (reverse seg) ∧
    follows (e_dtw eucl_dist t0 t1).2 (length t0 - 1) (length t1 - 1) seg ∧
    warping_path (Z.of_nat (length t0) - 1) (Z.of_nat (length t1) - 1) (reverse seg).
Proof.
  intros H0 H1 Hfuel.
  assert (0 < length t0) as Hn0 by (destruct t0; simpl; [done|lia]).
  assert (0 < length t1) as Hn1 by (destruct t1; simpl; [done|lia]).
  pose proof (e_dtw_wf_backptrs eucl_dist t0 t1) as HW.
  destruct (extract_wf _ _ _ HW fuel Hn0 Hn1 Hfuel)
    as (path & Hret & Hhead & Hlast & Hsteps & _).
  destruct (walk_follows _ _ _ (wf_backptrs_decreasing _ _ _ HW) fuel
              (length t0 - 1) (length t1 - 1) []) as (seg & Hwalk & Hseg & _); [lia..|].
  assert (path = reverse seg) as ->.
  { unfold e_extract_dtw_warping_path in Hret.
    destruct (mget_lookup (length t0) (length t1) _ 0 0 (proj1 HW)) as (row0 & Hrow0 & _);
      [done..|].
    change 0%Z with (Z.of_nat 0) in Hret. rewrite py_index_nat, Hrow0 in Hret.
    rewrite (proj1 (proj1 HW)), (proj2 (proj1 HW) _ _ Hrow0) in Hret.
    replace (Z.of_nat (length t0) - 1)%Z with (Z.of_nat (length t0 - 1)) in Hret by lia.
    replace (Z.of_nat (length t1) - 1)%Z with (Z.of_nat (length t1 - 1)) in Hret by lia.
    rewrite Hwalk in Hret. by injection Hret as <-. }
  exists seg. split_and!; done.
Qed.

(** ** The returned cost matrix *)

(** X1. For non-empty trajectories [e_dtw] returns a cost matrix and a
    backpointer matrix of [n0] rows of [n1] cells, and the scalar it
    returns is the last cell of the cost matrix. *)
Theorem e_dtw_result_shape (eucl_dist : point → point → Qc) (t0 t1 : list point) :
  t0 ≠ [] → t1 ≠ [] →
  has_shape (length t0) (length t1) (e_dtw eucl_dist t0 t1).1.2 ∧
  has_shape (length t0) (length t1) (e_dtw eucl_dist t0 t1).2 ∧
  (e_dtw eucl_dist t0 t1).1.1 =
    mget (e_dtw eucl_dist t0 t1).1.2 (length t0 - 1) (length t1 - 1).
Proof.
  intros H0 H1.
  assert (0 < length t0) as Hn0 by (destruct t0; simpl; [done|lia]).
  assert (0 < length t1) as Hn1 by (destruct t1; simpl; [done|lia]).
  destruct (e_dtw_returned_shape eucl_dist t0 t1) as [HC HW].
  split_and!; [done..|].
  rewrite e_dtw_returned_get by lia. unfold e_dtw; simpl.
  by replace (S (length t0 - 1)) with (length t0) by lia;
     replace (S (length t1 - 1)) with (length t1) by lia.
Qed.

Lemma e_dtw_result_shape_witness :
  let r := e_dtw taxicab [pt 0 0; pt 1 0; pt 2 0] [pt 0 0; pt 0 1] in
  has_shape 3 2 r.1.2 ∧ has_shape 3 2 r.2 ∧ r.1.1 = mget r.1.2 2 1.
Proof.
  apply (e_dtw_result_shape taxicab [pt 0 0; pt 1 0; pt 2 0] [pt 0 0; pt 0 1]); done.
Defined.

(** X2. The returned cost matrix obeys the recurrence without the padded
    boundary, whatever the lengths of the two trajectories: the first
    cell is the distance of the first two points, a cell of the first row
    (column) adds its distance to the cell on its left (above it), and
    any other cell adds its distance to the minimum of its left, diagonal
    and upper neighbours. *)
Theorem returned_matrix_recurrence
    (eucl_dist : point → point → Qc) (t0 t1 : list point) :
  let C := (e_dtw eucl_dist t0 t1).1.2 in
  let d a b := Fin (eucl_dist (t0 !!! a) (t1 !!! b)) in
  (t0 ≠ [] → t1 ≠ [] → mget C 0 0 = d 0 0) ∧
  (∀ j, t0 ≠ [] → S j < length t1 →
     mget C 0 (S j) = cost_add (d 0 (S j)) (mget C 0 j)) ∧
  (∀ i, S i < length t0 → t1 ≠ [] →
     mget C (S i) 0 = cost_add (d (S i) 0) (mget C i 0)) ∧
  (∀ i j, S i < length t0 → S j < length t1 →
     mget C (S i) (S j) =
       cost_add (d (S i) (S j))
                (py_min3 (mget C (S i) j) (mget C i j) (mget C i (S j)))).
Proof.
  intros C d. unfold C, d.
  pose proof (e_dtw_loop_filled eucl_dist t0 t1) as Hfilled.
  assert (∀ A (l : list A), l ≠ [] → 0 < length l) as Hpos.
  { intros A [|x l] Hl; simpl; [done|lia]. }
  split_and!.
  - intros H0%Hpos H1%Hpos. rewrite e_dtw_returned_get by lia.
    apply (filled_first_cell _ _ _ _ Hfilled); lia.
  - intros j H0%Hpos Hj. rewrite !e_dtw_returned_get by lia.
    rewrite (filled_value _ _ _ _ Hfilled 0 (S j)) by lia.
    by rewrite (filled_argmin_row0 _ _ _ _ Hfilled) by lia.
  - intros i Hi H1%Hpos. rewrite !e_dtw_returned_get by lia.
    rewrite (filled_value _ _ _ _ Hfilled (S i) 0) by lia.
    by rewrite (filled_argmin_col0 _ _ _ _ Hfilled) by lia.
  - intros i j Hi Hj. rewrite !e_dtw_returned_get by lia.
    rewrite (filled_value _ _ _ _ Hfilled (S i) (S j)) by lia.
    by rewrite <-py_min3_argmin.
Qed.

Lemma returned_matrix_recurrence_witness :
  let row := (e_dtw taxicab [pt 3 0] [pt 0 0; pt 0 1]).1.2 in
  let col := (e_dtw taxicab [pt 0 0; pt 1 0] [pt 0 3]).1.2 in
  let t0 := [pt 0 0; pt 1 0; pt 2 0] in
  let t1 := [pt 0 0; pt 0 1; pt 0 2] in
  let C := (e_dtw taxicab t0 t1).1.2 in
  let d a b := Fin (taxicab (t0 !!! a) (t1 !!! b)) in
  mget row 0 0 = Fin (taxicab (pt 3 0) (pt 0 0)) ∧
  mget row 0 1 = cost_add (Fin (taxicab (pt 3 0) (pt 0 1))) (mget row 0 0) ∧
  mget col 0 0 = Fin (taxicab (pt 0 0) (pt 0 3)) ∧
  mget col 1 0 = cost_add (Fin (taxicab (pt 1 0) (pt 0 3))) (mget col 0 0) ∧
  mget C 2 2 = cost_add (d 2 2) (py_min3 (mget C 2 1) (mget C 1 1) (mget C 1 2)).
Proof.
  pose proof (returned_matrix_recurrence taxicab [pt 3 0] [pt 0 0; pt 0 1])
    as (Hr0 & Hr1 & _ & _).
  pose proof (returned_matrix_recurrence taxicab [pt 0 0; pt 1 0] [pt 0 3])
    as (Hc0 & _ & Hc1 & _).
  pose proof (returned_matrix_recurrence taxicab
                [pt 0 0; pt 1 0; pt 2 0] [pt 0 0; pt 0 1; pt 0 2])
    as (_ & _ & _ & Hin).
  split_and!.
  - by apply Hr0.
  - apply (Hr1 0); [done|simpl; lia].
  - by apply Hc0.
  - apply (Hc1 0); [simpl; lia|done].
  - apply (Hin 1 1); simpl; lia.
Defined.

(** ** Symmetry, prefixes and comparison of point-distances *)

Lemma dtw_recurrence_mono dist dist' (t0 t1 : list point) n0 n1 f g :
  (∀ p q, (dist p q ≤ dist' p q)%Qc) →
  dtw_recurrence dist t0 t1 n0 n1 f →
  dtw_recurrence dist' t0 t1 n0 n1 g →
  ∀ i j, i ≤ n0 → j ≤ n1 → cost_le (f i j) (g i j).
Proof.
  intros Hle (Hf00 & Hfcol & Hfrow & Hf) (Hg00 & Hgcol & Hgrow & Hg).
  induction i as [|i IHi]; intros j; induction j as [|j IHj]; intros Hi Hj.
  - rewrite Hf00, Hg00. apply cost_le_refl.
  - by rewrite Hfrow, Hgrow by lia.
  - by rewrite Hfcol, Hgcol by lia.
  - rewrite Hf, Hg by lia.
    apply cost_add_mono; [done|].
    apply py_min3_mono; [apply IHj|apply IHi..]; lia.
Qed.

(** X6. When the point-distance is symmetric, swapping the two
    trajectories transposes the returned cost matrix and leaves the
    returned scalar as it is. *)
Theorem symmetric_distance_symmetric_dtw
    (eucl_dist : point → point → Qc) (t0 t1 : list point) (i j : nat) :
  (∀ p q, eucl_dist p q = eucl_dist q p) →
  i < length t0 → j < length t1 →
  (e_dtw eucl_dist t1 t0).1.1 = (e_dtw eucl_dist t0 t1).1.1 ∧
  mget (e_dtw eucl_dist t1 t0).1.2 j i = mget (e_dtw eucl_dist t0 t1).1.2 i j.
Proof.
  intros Hsym Hi Hj.
  pose proof (filled_recurrence _ _ _ _ (e_dtw_loop_filled eucl_dist t0 t1)) as Hrec.
  pose proof (filled_recurrence _ _ _ _ (e_dtw_loop_filled eucl_dist t1 t0)) as Hrec'.
  apply (dtw_recurrence_transpose _ _ _ _ _ _ Hsym) in Hrec.
  pose proof (dtw_recurrence_unique _ _ _ _ _ _ _ _ _
                (λ _ _, eq_refl) (λ _ _, eq_refl) Hrec' Hrec) as Heq.
  split.
  - unfold e_dtw; simpl. by apply Heq.
  - rewrite !e_dtw_returned_get by done. apply Heq; lia.
Qed.

Lemma symmetric_distance_symmetric_dtw_witness :
  let t0 := [pt 0 0; pt 1 0; pt 2 0] in
  let t1 := [pt 0 0; pt 0 1] in
  (e_dtw taxicab t1 t0).1.1 = (e_dtw taxicab t0 t1).1.1 ∧
  mget (e_dtw taxicab t1 t0).1.2 1 2 = mget (e_dtw taxicab t0 t1).1.2 2 1.
Proof.
  apply (symmetric_distance_symmetric_dtw taxicab
           [pt 0 0; pt 1 0; pt 2 0] [pt 0 0; pt 0 1] 2 1);
    [apply taxicab_sym|simpl; lia..].
Defined.

(** X7. Cell [(i,j)] of the returned cost matrix is the scalar [e_dtw]
    returns on the first [i+1] points of [t0] and the first [j+1] points
    of [t1]: the distance of the warping that ends with the pairing of
    point [i] with point [j]. *)
Theorem cell_is_dtw_of_prefixes
    (eucl_dist : point → point → Qc) (t0 t1 : list point) (i j : nat) :
  i < length t0 → j < length t1 →
  mget (e_dtw eucl_dist t0 t1).1.2 i j =
    (e_dtw eucl_dist (take (S i) t0) (take (S j) t1)).1.1.
Proof.
  intros Hi Hj. rewrite e_dtw_returned_get by done.
  pose proof (filled_recurrence _ _ _ _ (e_dtw_loop_filled eucl_dist t0 t1))
    as (H00 & Hcol & Hrow & Hrec).
  pose proof (filled_recurrence _ _ _ _
                (e_dtw_loop_filled eucl_dist (take (S i) t0) (take (S j) t1))) as Hrec'.
  rewrite !length_take, !Nat.min_l in Hrec' by lia.
  unfold e_dtw; simpl. rewrite !length_take, !Nat.min_l by lia.
  apply (dtw_recurrence_unique eucl_dist t0 t1 (take (S i) t0) (take (S j) t1) (S i) (S j));
    [..|done|lia|lia].
  - intros k Hk. by rewrite lookup_take_lt.
  - intros k Hk. by rewrite lookup_take_lt.
  - split_and!; [done|intros; apply Hcol; lia|intros; apply Hrow; lia|].
    intros a b Ha Hb. apply Hrec; lia.
Qed.

Lemma cell_is_dtw_of_prefixes_witness :
  let t0 := [pt 0 0; pt 1 0; pt 2 0] in
  let t1 := [pt 0 0; pt 0 1; pt 0 2] in
  mget (e_dtw taxicab t0 t1).1.2 1 2 =
    (e_dtw taxicab [pt 0 0; pt 1 0] [pt 0 0; pt 0 1; pt 0 2]).1.1.
Proof.
  apply (cell_is_dtw_of_prefixes taxicab
           [pt 0 0; pt 1 0; pt 2 0] [pt 0 0; pt 0 1; pt 0 2] 1 2); simpl; lia.
Defined.

(** X8. A point-distance that is nowhere larger gives a cost matrix, and
    a returned scalar, that is nowhere larger. *)
Theorem smaller_distance_smaller_dtw
    (dist dist' : point → point → Qc) (t0 t1 : list point) (i j : nat) :
  (∀ p q, (dist p q ≤ dist' p q)%Qc) →
  i < length t0 → j < length t1 →
  cost_le (e_dtw dist t0 t1).1.1 (e_dtw dist' t0 t1).1.1 ∧
  cost_le (mget (e_dtw dist t0 t1).1.2 i j) (mget (e_dtw dist' t0 t1).1.2 i j).
Proof.
  intros Hle Hi Hj.
  pose proof (dtw_recurrence_mono _ _ _ _ _ _ _ _ Hle
                (filled_recurrence _ _ _ _ (e_dtw_loop_filled dist t0 t1))
                (filled_recurrence _ _ _ _ (e_dtw_loop_filled dist' t0 t1))) as Hmono.
  split.
  - unfold e_dtw; simpl. by apply Hmono.
  - rewrite !e_dtw_returned_get by done. apply Hmono; lia.
Qed.

Lemma smaller_distance_smaller_dtw_witness :
  let t0 := [pt 0 0; pt 1 0; pt 2 0] in
  let t1 := [pt 0 0; pt 0 1] in
  cost_le (e_dtw (λ _ _, 0%Qc) t0 t1).1.1 (e_dtw taxicab t0 t1).1.1 ∧
  cost_le (mget (e_dtw (λ _ _, 0%Qc) t0 t1).1.2 2 1)
          (mget (e_dtw taxicab t0 t1).1.2 2 1).
Proof.
  apply (smaller_distance_smaller_dtw (λ _ _, 0%Qc) taxicab
           [pt 0 0; pt 1 0; pt 2 0] [pt 0 0; pt 0 1] 2 1);
    [apply taxicab_nonneg|simpl; lia..].
Defined.

(** ** The reconstruction on any matrix *)

(** X10. Whatever the matrix, when the reconstruction returns a path,
    [W] has a first row, the path starts with [(0,0)], which occurs
    nowhere else in it, it ends with [(len(W)-1, len(W[0])-1)], and each
    entry is what the cell named by the next entry holds, in the indexing
    of Python lists. *)
Theorem returned_path_is_backpointer_chain
    (W : matrix backptr) (fuel : nat) (path : list (Z * Z)) :
  e_extract_dtw_warping_path fuel W = Returns path →
  ∃ row0,
    W !! 0 = Some row0 ∧
    head path = Some (0, 0)%Z ∧
    last path = Some (Z.of_nat (length W) - 1, Z.of_nat (length row0) - 1)%Z ∧
    (∀ k, path !! k = Some (0, 0)%Z → k = 0) ∧
    (∀ k q a b, path !! k = Some q → path !! S k = Some (a, b) →
       ∃ row, py_index W a = Some row ∧ py_index row b = Some (Some q)).
Proof.
  unfold e_extract_dtw_warping_path. change 0%Z with (Z.of_nat 0).
  rewrite py_index_nat. destruct (W !! 0) as [row0|] eqn:Hrow0; [|done].
  intros (p & seg & [= <-] & -> & Hseg)%walk_links. simpl.
  exists row0. split_and!.
  - done.
  - rewrite head_reverse. by eapply links_last.
  - rewrite last_reverse. by eapply links_head.
  - intros k Hk.
    assert (k < length seg) as Hlt
      by (apply lookup_lt_Some in Hk; by rewrite length_reverse in Hk).
    rewrite reverse_lookup in Hk by done.
    apply (links_origin_last _ _ _ _ Hseg) in Hk. lia.
  - intros k q a b Hk Hk'.
    assert (S k < length seg) as Hlt
      by (apply lookup_lt_Some in Hk'; by rewrite length_reverse in Hk').
    rewrite reverse_lookup in Hk, Hk' by lia.
    apply (links_consecutive _ _ _ (length seg - S (S k)) a b q Hseg Hk').
    by replace (S (length seg - S (S k))) with (length seg - S k) by lia.
Qed.

(** A matrix [e_dtw] does not produce: the cell [(1,1)] holds negative
    indices, which wrap around to the cell [(1,0)]. *)
Lemma returned_path_is_backpointer_chain_witness :
  let W := [[None; None]; [Some (0, 0)%Z; Some (-1, -2)%Z]] in
  ∃ row0,
    W !! 0 = Some row0 ∧
    head [(0, 0); (-1, -2); (1, 1)]%Z = Some (0, 0)%Z ∧
    last [(0, 0); (-1, -2); (1, 1)]%Z =
      Some (Z.of_nat (length W) - 1, Z.of_nat (length row0) - 1)%Z ∧
    (∀ k, [(0, 0); (-1, -2); (1, 1)]%Z !! k = Some (0, 0)%Z → k = 0) ∧
    (∀ k q a b, [(0, 0); (-1, -2); (1, 1)]%Z !! k = Some q →
       [(0, 0); (-1, -2); (1, 1)]%Z !! S k = Some (a, b) →
       ∃ row, py_index W a = Some row ∧ py_index row b = Some (Some q)).
Proof.
  apply (returned_path_is_backpointer_chain
           [[None; None]; [Some (0, 0)%Z; Some (-1, -2)%Z]] 3). reflexivity.
Defined.

(** X11. On a matrix of [n0 ≥ 1] rows and [n1 ≥ 1] columns whose cells,
    but [(0,0)], name a cell of the matrix with a smaller sum of indices,
    steps of any length, the reconstruction returns a path from
    [(0,0)] to [(n0-1, n1-1)] of in-range indices and of at most
    [n0 + n1 - 1] entries, as soon as its loop may evaluate its condition
    [n0 + n1 - 1] times. *)
Theorem reconstruction_on_decreasing_backpointers
    (n0 n1 : nat) (W : matrix backptr) (fuel : nat) :
  decreasing_backptrs n0 n1 W →
  0 < n0 → 0 < n1 → n0 + n1 ≤ S fuel →
  ∃ path,
    e_extract_dtw_warping_path fuel W = Returns path ∧
    head path = Some (0, 0)%Z ∧
    last path = Some (Z.of_nat n0 - 1, Z.of_nat n1 - 1)%Z ∧
    (∀ a b, (a, b) ∈ path → (0 ≤ a < Z.of_nat n0)%Z ∧ (0 ≤ b < Z.of_nat n1)%Z) ∧
    length path ≤ n0 + n1 - 1.
Proof.
  intros HW Hn0 Hn1 Hfuel. unfold e_extract_dtw_warping_path.
  destruct (mget_lookup n0 n1 W 0 0 (proj1 HW)) as (row0 & Hrow0 & _); [done..|].
  change 0%Z with (Z.of_nat 0). rewrite py_index_nat, Hrow0.
  rewrite (proj1 (proj1 HW)), (proj2 (proj1 HW) _ _ Hrow0).
  replace (Z.of_nat n0 - 1)%Z with (Z.of_nat (n0 - 1)) by lia.
  replace (Z.of_nat n1 - 1)%Z with (Z.of_nat (n1 - 1)) by lia.
  destruct (walk_follows _ _ _ HW fuel (n0 - 1) (n1 - 1) [])
    as (seg & Hwalk & Hseg & Hlen); [lia..|].
  exists (reverse seg). split_and!.
  - done.
  - rewrite head_reverse. by eapply follows_last.
  - rewrite last_reverse. by eapply follows_head.
  - intros a b Hab. rewrite elem_of_reverse in Hab.
    apply (follows_in_range _ _ _ HW _ _ _ Hseg); [lia..|done].
  - rewrite length_reverse. lia.
Qed.

(** A matrix of one row whose last cell skips a cell on its way back. *)
Lemma reconstruction_on_decreasing_backpointers_witness :
  ∃ path,
    e_extract_dtw_warping_path 3 [[None; Some (0, 0)%Z; Some (0, 0)%Z]] = Returns path ∧
    head path = Some (0, 0)%Z ∧
    last path = Some (Z.of_nat 1 - 1, Z.of_nat 3 - 1)%Z ∧
    (∀ a b, (a, b) ∈ path → (0 ≤ a < Z.of_nat 1)%Z ∧ (0 ≤ b < Z.of_nat 3)%Z) ∧
    length path ≤ 1 + 3 - 1.
Proof.
  apply (reconstruction_on_decreasing_backpointers 1 3
           [[None; Some (0, 0)%Z; Some (0, 0)%Z]] 3); [|lia..].
  split.
  - split; [done|]. intros [|i] row Hrow; by simplify_eq/=.
  - intros i j Hi Hj Hne. exists 0, 0.
    destruct i as [|i]; [|lia]. destruct j as [|[|[|j]]]; [tauto| | |lia].
    + split_and!; [done|lia..].
    + split_and!; [done|lia..].
Defined.

(** X12. When one of the two trajectories is empty [e_dtw] returns, but
    the reconstruction from the backpointer matrix it returned raises
    [IndexError]: on [W[0]] when [t0] is empty, and on the column index
    [-1] of an empty row when only [t1] is. *)
Theorem reconstruction_after_empty_trajectory
    (eucl_dist : point → point → Qc) (t0 t1 : list point) (fuel : nat) :
  t0 = [] ∨ t1 = [] →
  e_extract_dtw_warping_path (S fuel) (e_dtw eucl_dist t0 t1).2 = Raises IndexError.
Proof.
  intros Hempty. destruct t0 as [|p t0].
  - destruct t1; [done|]. by rewrite e_dtw_nil_l.
  - destruct Hempty as [?| ->]; [done|].
    rewrite e_dtw_nil_r by done. simpl.
    unfold e_extract_dtw_warping_path; simpl.
    rewrite length_replicate. simpl.
    rewrite bool_decide_eq_false_2 by (intros [= ? ?]; lia).
    replace (Z.of_nat (S (length t0)) - 1)%Z with (Z.of_nat (length t0)) by lia.
    rewrite py_index_nat.
    change ([] :: replicate (length t0) [])
      with (replicate (S (length t0)) (@nil (option (Z * Z)))).
    by rewrite lookup_replicate_2 by lia.
Qed.

Lemma reconstruction_after_empty_trajectory_witness :
  e_extract_dtw_warping_path 1 (e_dtw taxicab [pt 0 0; pt 1 0] []).2 =
    Raises IndexError.
Proof.
  apply (reconstruction_after_empty_trajectory taxicab [pt 0 0; pt 1 0] [] 0).
  by right.
Defined.

(** ** Bounds on the returned distance *)

(** X15. Under a non-negative point-distance every cell of the returned
    cost matrix is at least the distance of its own two points, hence
    non-negative; the returned scalar is at least the distance of the two
    last points. *)
Theorem cell_at_least_own_distance
    (eucl_dist : point → point → Qc) (t0 t1 : list point) (i j : nat) :
  (∀ p q, (0 ≤ eucl_dist p q)%Qc) →
  i < length t0 → j < length t1 →
  cost_le (Fin (eucl_dist (t0 !!! i) (t1 !!! j))) (mget (e_dtw eucl_dist t0 t1).1.2 i j) ∧
  cost_le (Fin 0%Qc) (mget (e_dtw eucl_dist t0 t1).1.2 i j) ∧
  cost_le (Fin (eucl_dist (t0 !!! (length t0 - 1)) (t1 !!! (length t1 - 1))))
          (e_dtw eucl_dist t0 t1).1.1.
Proof.
  intros Hnonneg Hi Hj.
  pose proof (e_dtw_loop_filled eucl_dist t0 t1) as Hfilled.
  assert (∀ a b, a < length t0 → b < length t1 →
            cost_le (Fin (eucl_dist (t0 !!! a) (t1 !!! b)))
                    (mget (st_C (e_dtw_loop eucl_dist t0 t1)) (S a) (S b))) as Hown.
  { intros a b Ha Hb. rewrite (filled_value _ _ _ _ Hfilled) by done.
    set (C := st_C (e_dtw_loop eucl_dist t0 t1)).
    assert (cost_le (Fin 0%Qc)
              ([mget C (S a) b; mget C a b; mget C a (S b)]
                 !!! argmin [mget C (S a) b; mget C a b; mget C a (S b)])) as Hm.
    { destruct (argmin3_cases (mget C (S a) b) (mget C a b) (mget C a (S b)))
        as [-> | [-> | ->]];
        apply (filled_nonneg _ _ _ _ Hfilled Hnonneg); lia. }
    destruct ([mget C (S a) b; mget C a b; mget C a (S b)] !!! _) as [m|]; [|done].
    simpl in *. rewrite <-(Qcplus_0_r (eucl_dist _ _)) at 1.
    by apply Qcplus_le_mono_l. }
  split_and!.
  - rewrite e_dtw_returned_get by done. by apply Hown.
  - rewrite e_dtw_returned_get by done.
    apply (filled_nonneg _ _ _ _ Hfilled Hnonneg); lia.
  - pose proof (Hown (length t0 - 1) (length t1 - 1)) as Hlast.
    replace (S (length t0 - 1)) with (length t0) in Hlast by lia.
    replace (S (length t1 - 1)) with (length t1) in Hlast by lia.
    apply Hlast; lia.
Qed.

Lemma cell_at_least_own_distance_witness :
  let t0 := [pt 0 0; pt 1 0; pt 2 0] in
  let t1 := [pt 0 0; pt 0 1] in
  cost_le (Fin (taxicab (t0 !!! 2) (t1 !!! 0))) (mget (e_dtw taxicab t0 t1).1.2 2 0) ∧
  cost_le (Fin 0%Qc) (mget (e_dtw taxicab t0 t1).1.2 2 0) ∧
  cost_le (Fin (taxicab (t0 !!! 2) (t1 !!! 1))) (e_dtw taxicab t0 t1).1.1.
Proof.
  apply (cell_at_least_own_distance taxicab
           [pt 0 0; pt 1 0; pt 2 0] [pt 0 0; pt 0 1] 2 0);
    [apply taxicab_nonneg|simpl; lia..].
Defined.

(** ** One point against a trajectory *)

Lemma warping_path_row path : ∀ b,
  warping_path 0 b path → path = row_path (S (Z.to_nat b)).
Proof.
  induction path as [|[a0 b0] path IH] using rev_ind; intros b (Hhead & Hlast & Hsteps).
  { done. }
  rewrite last_snoc in Hlast. injection Hlast as -> ->.
  apply consecutive_snoc_inv in Hsteps as [Hsteps Hstep].
  destruct (last path) as [[a' b']|] eqn:Hlast'.
  - assert (warping_path a' b' path) as Hpath.
    { split_and!; [|done..]. destruct path; [done|]. done. }
    destruct (warping_path_shape _ _ _ Hpath) as ((Ha' & Hb') & _).
    specialize (Hstep _ eq_refl). unfold forward_step in Hstep; simpl in Hstep.
    assert (a' = 0%Z) as -> by lia. assert (b = (b' + 1)%Z) as -> by lia.
    rewrite (IH b' Hpath). unfold row_path.
    replace (Z.to_nat (b' + 1)) with (S (Z.to_nat b')) by lia.
    rewrite (seq_S (S (Z.to_nat b'))), fmap_app. simpl.
    by replace (Z.of_nat (S (Z.to_nat b'))) with (b' + 1)%Z by lia.
  - apply last_None in Hlast' as ->. simpl in Hhead. by injection Hhead as ->.
Qed.

(** ** When the distance is zero *)

Lemma path_cost_nonneg dist (t0 t1 : list point) path :
  (∀ p q, (0 ≤ dist p q)%Qc) → (0 ≤ path_cost dist t0 t1 path)%Qc.
Proof.
  intros Hnonneg. induction path as [|x path IH]; [apply Qcle_refl|].
  unfold path_cost in *; simpl. by apply Qcplus_nonneg_nonneg.
Qed.

Lemma path_cost_zero dist (t0 t1 : list point) path :
  (∀ p q, (0 ≤ dist p q)%Qc) →
  path_cost dist t0 t1 path = 0%Qc ↔
  ∀ a b, (a, b) ∈ path → dist (t0 !!! Z.to_nat a) (t1 !!! Z.to_nat b) = 0%Qc.
Proof.
  intros Hnonneg. induction path as [|[a b] path IH].
  - split; [|done]. intros _ a b Hab. by apply elem_of_nil in Hab.
  - change (path_cost dist t0 t1 ((a, b) :: path))
      with (dist (t0 !!! Z.to_nat a) (t1 !!! Z.to_nat b) + path_cost dist t0 t1 path)%Qc.
    split.
    + intros Hsum.
      apply Qc_nonneg_sum_zero in Hsum as [Hd Hrest];
        [|done|by apply path_cost_nonneg].
      intros a' b' [[= -> ->]|Hin]%elem_of_cons; [done|]. by apply IH.
    + intros Hall. rewrite (Hall a b) by left.
      rewrite (proj2 IH); [by rewrite Qcplus_0_l|].
      intros a' b' Hin. apply Hall. by right.
Qed.

(** X17. Under a non-negative point-distance, for non-empty trajectories
    the returned distance is 0 exactly when some warping path from
    [(0,0)] to [(n0-1, n1-1)] pairs points at distance 0 only; the two
    trajectories need not have the same length. *)
Theorem zero_distance_iff_zero_warping_path
    (eucl_dist : point → point → Qc) (t0 t1 : list point) :
  (∀ p q, (0 ≤ eucl_dist p q)%Qc) → t0 ≠ [] → t1 ≠ [] →
  (e_dtw eucl_dist t0 t1).1.1 = Fin 0%Qc ↔
  ∃ path,
    warping_path (Z.of_nat (length t0) - 1) (Z.of_nat (length t1) - 1) path ∧
    ∀ a b, (a, b) ∈ path →
      eucl_dist (t0 !!! Z.to_nat a) (t1 !!! Z.to_nat b) = 0%Qc.
Proof.
  intros Hnonneg H0 H1.
  assert (0 < length t0) as Hn0 by (destruct t0; simpl; [done|lia]).
  assert (0 < length t1) as Hn1 by (destruct t1; simpl; [done|lia]).
  pose proof (e_dtw_loop_filled eucl_dist t0 t1) as Hfilled.
  split.
  - intros Hzero.
    destruct (e_dtw_path eucl_dist t0 t1 (length t0 + length t1))
      as (seg & _ & Hseg & Hpath); [done|done|lia|].
    exists (reverse seg). split; [done|].
    apply (path_cost_zero _ _ _ _ Hnonneg). rewrite path_cost_reverse.
    pose proof (follows_cost _ _ _ _ Hfilled _ _ _ Hseg) as Hcost.
    replace (S (length t0 - 1)) with (length t0) in Hcost by lia.
    replace (S (length t1 - 1)) with (length t1) in Hcost by lia.
    unfold e_dtw in Hzero; simpl in Hzero. rewrite Hcost in Hzero by lia.
    by injection Hzero.
  - intros (path & Hpath & Hall).
    apply (path_cost_zero _ t0 t1 _ Hnonneg) in Hall.
    destruct (filled_lower_bound _ _ _ _ Hfilled _ _ _ Hpath) as [_ Hbound].
    replace (S (Z.to_nat (Z.of_nat (length t0) - 1))) with (length t0) in Hbound by lia.
    replace (S (Z.to_nat (Z.of_nat (length t1) - 1))) with (length t1) in Hbound by lia.
    rewrite Hall in Hbound. unfold e_dtw; simpl.
    apply cost_le_antisym; [apply Hbound; lia|].
    by apply (filled_nonneg _ _ _ _ Hfilled Hnonneg).
Qed.

(** One point against the same point twice: the distance is 0 though the
    lengths differ. *)
Lemma zero_distance_iff_zero_warping_path_witness :
  let t0 := [pt 1 2] in
  let t1 := [pt 1 2; pt 1 2] in
  (e_dtw taxicab t0 t1).1.1 = Fin 0%Qc ↔
  ∃ path,
    warping_path 0 1 path ∧
    ∀ a b, (a, b) ∈ path →
      taxicab (t0 !!! Z.to_nat a) (t1 !!! Z.to_nat b) = 0%Qc.
Proof.
  apply (zero_distance_iff_zero_warping_path taxicab [pt 1 2] [pt 1 2; pt 1 2]);
    [apply taxicab_nonneg|done..].
Defined.

(** * The engines on floats: properties *)

(** ** Comparisons with [+inf] *)

Lemma float_is_finite_not_nan (x : float) :
  PrimFloat.is_finite x = true → PrimFloat.is_nan x = false.
Proof.
  unfold PrimFloat.is_finite. intros H%negb_true_iff.
  by apply orb_false_iff in H as [? _].
Qed.

Lemma float_is_finite_not_inf (x : float) :
  PrimFloat.is_finite x = true → x ≠ infinity.
Proof. intros H ->. by vm_compute in H. Qed.

(** [inf >= x] unless [x] is NaN. *)
Lemma float_leb_inf_r (x : float) :
  PrimFloat.is_nan x = false → (x <=? infinity)%float = true.
Proof.
  unfold PrimFloat.is_nan. rewrite FloatAxioms.leb_spec, FloatAxioms.eqb_spec.
  change (Prim2SF infinity) with (S754_infinity false).
  unfold SFleb, SFeqb, SFcompare.
  destruct (Prim2SF x) as [s|s| |s m e]; try destruct s; simpl; congruence.
Qed.

(** [x >= inf] only for [x = inf]. *)
Lemma float_leb_inf_l (x : float) :
  x ≠ infinity → (infinity <=? x)%float = false.
Proof.
  intros Hx. rewrite FloatAxioms.leb_spec.
  change (Prim2SF infinity) with (S754_infinity false).
  destruct (Prim2SF x) as [s|s| |s m e] eqn:Hsf; try destruct s; try done.
  exfalso. apply Hx. rewrite <-(FloatAxioms.SF2Prim_Prim2SF x), Hsf. reflexivity.
Qed.

(** Nothing is above [+inf]. *)
Lemma float_ltb_inf_l (x : float) : (infinity <? x)%float = false.
Proof.
  rewrite FloatAxioms.ltb_spec.
  change (Prim2SF infinity) with (S754_infinity false).
  by destruct (Prim2SF x) as [s|s| |s m e]; try destruct s.
Qed.

(** A finite number is below [+inf]. *)
Lemma float_ltb_inf_r (x : float) :
  PrimFloat.is_finite x = true → (x <? infinity)%float = true.
Proof.
  intros Hfin.
  pose proof (float_is_finite_not_nan x Hfin) as Hnan.
  pose proof (float_is_finite_not_inf x Hfin) as Hinf.
  unfold PrimFloat.is_nan in Hnan.
  rewrite FloatAxioms.eqb_spec in Hnan. rewrite FloatAxioms.ltb_spec.
  change (Prim2SF infinity) with (S754_infinity false).
  unfold SFeqb, SFltb, SFcompare in *.
  destruct (Prim2SF x) as [s|s| |s m e] eqn:Hsf; try destruct s; simpl in *; try done.
  exfalso. apply Hinf. rewrite <-(FloatAxioms.SF2Prim_Prim2SF x), Hsf. reflexivity.
Qed.

(** ** [np.argmin] on three floats *)

Lemma float_argmin3_lt a b c : Float64.argmin [a; b; c] < 3.
Proof.
  unfold Float64.argmin, Float64.argmin_from. repeat case_match; lia.
Qed.

(** Candidates [[x; inf; inf]]: the first one is kept, whatever it is. *)
Lemma float_argmin3_row x : Float64.argmin [x; infinity; infinity] = 0.
Proof.
  unfold Float64.argmin, Float64.argmin_from.
  destruct (PrimFloat.is_nan x) eqn:Hnan; [done|].
  by rewrite float_leb_inf_r.
Qed.

(** Candidates [[inf; inf; c]]: the third one is chosen, unless it is
    [+inf] too, when the first one is kept. *)
Lemma float_argmin3_col c :
  c ≠ infinity → Float64.argmin [infinity; infinity; c] = 2.
Proof.
  intros Hc. unfold Float64.argmin, Float64.argmin_from.
  change (PrimFloat.is_nan infinity) with false.
  change (infinity <=? infinity)%float with true. cbn [negb].
  rewrite float_leb_inf_l by done. cbn [negb]. by case_match.
Qed.

Lemma float_argmin3_all_inf : Float64.argmin [infinity; infinity; infinity] = 0.
Proof. reflexivity. Qed.

(** The value [np.argmin] points to, when no candidate is NaN: the scan
    of a running minimum. *)
Lemma float_argmin3_value a b c :
  PrimFloat.is_nan a = false → PrimFloat.is_nan b = false →
  PrimFloat.is_nan c = false →
  [a; b; c] !!! Float64.argmin [a; b; c] =
    let m := if negb (a <=? b)%float then b else a in
    if negb (m <=? c)%float then c else m.
Proof.
  intros Ha Hb Hc. unfold Float64.argmin, Float64.argmin_from.
  rewrite Ha, Hb, Hc.
  destruct (negb (a <=? b)%float); cbv zeta;
    by destruct (negb (_ <=? c)%float).
Qed.

Lemma float_finite_or_inf_not_nan x :
  PrimFloat.is_finite x = true ∨ x = infinity → PrimFloat.is_nan x = false.
Proof. intros [Hx| ->]; [by apply float_is_finite_not_nan|done]. Qed.

(** One step of the scan keeps a finite minimum finite and takes a finite
    number over [+inf]. *)
Lemma float_scan_step mp x :
  PrimFloat.is_finite mp = true ∨ mp = infinity →
  PrimFloat.is_finite x = true ∨ x = infinity →
  let mp' := if negb (mp <=? x)%float then x else mp in
  (PrimFloat.is_finite mp' = true ∨ mp' = infinity) ∧
  (PrimFloat.is_finite mp = true ∨ PrimFloat.is_finite x = true →
   PrimFloat.is_finite mp' = true).
Proof.
  intros [Hmp| ->] [Hx| ->]; cbv zeta.
  - destruct (negb _); auto.
  - rewrite float_leb_inf_r by (by apply float_is_finite_not_nan). simpl. auto.
  - rewrite float_leb_inf_l by (by apply float_is_finite_not_inf). simpl. auto.
  - change (negb (infinity <=? infinity)%float) with false. cbv iota.
    split; [auto|]. intros [H|H]; by vm_compute in H.
Qed.

(** With candidates that are finite or [+inf], one of them finite, the
    chosen one is finite. *)
Lemma float_argmin3_finite a b c :
  PrimFloat.is_finite a = true ∨ a = infinity →
  PrimFloat.is_finite b = true ∨ b = infinity →
  PrimFloat.is_finite c = true ∨ c = infinity →
  PrimFloat.is_finite a = true ∨ PrimFloat.is_finite b = true ∨
    PrimFloat.is_finite c = true →
  PrimFloat.is_finite ([a; b; c] !!! Float64.argmin [a; b; c]) = true.
Proof.
  intros Ha Hb Hc Hsome.
  rewrite float_argmin3_value by (by apply float_finite_or_inf_not_nan).
  destruct (float_scan_step a b Ha Hb) as [Hm Hm'].
  destruct (float_scan_step _ c Hm Hc) as [_ Hfin].
  apply Hfin. tauto.
Qed.

(** ** The matrices before the loops *)

Lemma float_init_shape n m :
  has_shape n m (Float64.set_row0_inf (Float64.set_col0_inf (Float64.zeros n m))).
Proof.
  unfold Float64.set_row0_inf, Float64.set_col0_inf, Float64.zeros. split.
  - by rewrite length_alter, length_imap, length_replicate.
  - intros i row. destruct i as [|i].
    + rewrite list_lookup_alter_eq, list_lookup_imap.
      intros (r & (r' & [-> _]%lookup_replicate & ->)%fmap_Some & ->)%fmap_Some.
      by rewrite length_imap, length_replicate.
    + rewrite list_lookup_alter_ne, list_lookup_imap by done.
      intros (r' & [-> _]%lookup_replicate & ->)%fmap_Some.
      by rewrite length_insert, length_replicate.
Qed.

Lemma float_init_get n m i j :
  i < n → j < m →
  mget (Float64.set_row0_inf (Float64.set_col0_inf (Float64.zeros n m))) i j =
    Float64.init_cell i j.
Proof.
  intros Hi Hj.
  unfold mget, Float64.set_row0_inf, Float64.set_col0_inf, Float64.zeros.
  destruct i as [|i].
  - erewrite (list_lookup_total_correct _ 0).
    2:{ rewrite list_lookup_alter_eq, list_lookup_imap, lookup_replicate_2 by done.
        reflexivity. }
    apply list_lookup_total_correct.
    rewrite list_lookup_imap, lookup_replicate_2 by done. by destruct j.
  - erewrite (list_lookup_total_correct _ (S i)).
    2:{ rewrite list_lookup_alter_ne, list_lookup_imap, lookup_replicate_2 by done.
        reflexivity. }
    apply list_lookup_total_correct. destruct j as [|j].
    + apply list_lookup_insert_eq. by rewrite length_replicate.
    + rewrite list_lookup_insert_ne by done. apply lookup_replicate_2. lia.
Qed.

Lemma float_init_boundary n0 n1 :
  Float64.boundary
    (Float64.set_row0_inf (Float64.set_col0_inf (Float64.zeros (n0 + 1) (n1 + 1))))
    n0 n1.
Proof.
  unfold Float64.boundary.
  split_and!; intros; rewrite float_init_get by lia; try done.
  - by destruct i; [lia|].
  - by destruct j; [lia|].
Qed.

(** ** The loops of [e_dtw] on floats *)

Section FloatEuclideanEngine.
Variable eucl_dist : float * float → float * float → float.
Variables t0 t1 : list (float * float).

Local Abbreviation n0 := (length t0).
Local Abbreviation n1 := (length t1).
Local Abbreviation filled_at := (Float64.filled_to eucl_dist t0 t1).

Lemma float_e_dtw_init_filled : filled_at 1 1 (Float64.e_dtw_init t0 t1).
Proof.
  unfold Float64.filled_to, Float64.e_dtw_init; simpl. split_and!.
  - apply float_init_shape.
  - apply replicate_shape.
  - apply float_init_boundary.
  - intros a b Ha Hb. lia.
Qed.

Lemma float_e_dtw_cell_C st i j :
  Float64.st_C (Float64.e_dtw_cell eucl_dist t0 t1 i j st) =
    mset (Float64.st_C st) i j
      (PrimFloat.add (eucl_dist (t0 !!! (i - 1)) (t1 !!! (j - 1)))
         (Float64.candidates (Float64.st_C st) i j
            !!! Float64.argmin (Float64.candidates (Float64.st_C st) i j))).
Proof. reflexivity. Qed.

Lemma float_e_dtw_cell_W st i j :
  Float64.st_W (Float64.e_dtw_cell eucl_dist t0 t1 i j st) =
    mset (Float64.st_W st) (i - 1) (j - 1)
         (backptr_of i j (Float64.argmin (Float64.candidates (Float64.st_C st) i j))).
Proof.
  unfold Float64.e_dtw_cell, backptr_of; simpl.
  by destruct (bool_decide (i = 1) && bool_decide (j = 1)).
Qed.

Lemma float_candidates_mset C i j v a b :
  1 ≤ a → 1 ≤ b → a < i ∨ (a = i ∧ b ≤ j) →
  Float64.candidates (mset C i j v) a b = Float64.candidates C a b.
Proof.
  intros Ha Hb Hab. unfold Float64.candidates.
  rewrite !mget_mset_ne; [done|intros [= ? ?]; lia..].
Qed.

Lemma float_e_dtw_cell_filled st i j :
  1 ≤ i ≤ n0 → 1 ≤ j ≤ n1 →
  filled_at i j st → filled_at i (S j) (Float64.e_dtw_cell eucl_dist t0 t1 i j st).
Proof.
  intros Hi Hj (HC & HW & (H00 & Hcol & Hrow) & Hcells).
  unfold Float64.filled_to. rewrite float_e_dtw_cell_C, float_e_dtw_cell_W. split_and!.
  - by apply mset_shape.
  - by apply mset_shape.
  - unfold Float64.boundary. split_and!.
    + rewrite mget_mset_ne by (intros [= ? ?]; lia). done.
    + intros a Ha. rewrite mget_mset_ne by (intros [= ? ?]; lia). by apply Hcol.
    + intros b Hb. rewrite mget_mset_ne by (intros [= ? ?]; lia). by apply Hrow.
  - intros a b Ha Hb Hab. unfold Float64.cell_ok.
    rewrite float_e_dtw_cell_C, float_e_dtw_cell_W. cbv zeta.
    rewrite float_candidates_mset by lia.
    destruct (decide ((a, b) = (i, j))) as [[= -> ->]|Hne].
    + rewrite (mget_mset_eq (n0 + 1) (n1 + 1)) by (done || lia).
      rewrite (mget_mset_eq n0 n1) by (done || lia). done.
    + rewrite !mget_mset_ne.
      * apply Hcells; [done..|]. destruct Hab as [?|[-> ?]]; [lia|].
        right. split; [done|]. destruct (decide (b = j)); [congruence|lia].
      * intros [= ? ?]. apply Hne. f_equal; lia.
      * congruence.
Qed.

Lemma float_e_dtw_row_filled st i :
  1 ≤ i ≤ n0 → filled_at i 1 st →
  filled_at (S i) 1 (Float64.e_dtw_row eucl_dist t0 t1 i st).
Proof.
  intros Hi Hst. unfold Float64.e_dtw_row.
  assert (Hk : ∀ k, k ≤ n1 →
    filled_at i (S k)
      (foldl (λ st j, Float64.e_dtw_cell eucl_dist t0 t1 i j st) st (seq 1 k))).
  { induction k as [|k IH]; intros Hle; [done|].
    rewrite seq_S, foldl_app. simpl. apply float_e_dtw_cell_filled; [lia..|].
    apply IH. lia. }
  destruct (Hk n1) as (HC & HW & Hb & Hcells); [done|].
  split_and!; try done.
  intros a b Ha Hb' Hab. apply Hcells; [done..|]. lia.
Qed.

Lemma float_e_dtw_loop_filled :
  Float64.filled eucl_dist t0 t1 (Float64.e_dtw_loop eucl_dist t0 t1).
Proof.
  unfold Float64.filled, Float64.e_dtw_loop.
  assert (Hk : ∀ k, k ≤ n0 →
    filled_at (S k) 1
      (foldl (λ st i, Float64.e_dtw_row eucl_dist t0 t1 i st)
             (Float64.e_dtw_init t0 t1) (seq 1 k))).
  { induction k as [|k IH]; intros Hle; [apply float_e_dtw_init_filled|].
    rewrite seq_S, foldl_app. simpl. apply float_e_dtw_row_filled; [lia|].
    apply IH. lia. }
  by apply Hk.
Qed.

End FloatEuclideanEngine.

Section FloatFilled.
Variable eucl_dist : float * float → float * float → float.
Variables t0 t1 : list (float * float).
Variable st : Float64.dtw_state.
Hypothesis Hfilled : Float64.filled eucl_dist t0 t1 st.

Lemma float_filled_boundary :
  Float64.boundary (Float64.st_C st) (length t0) (length t1).
Proof. by destruct Hfilled as (_ & _ & ? & _). Qed.

Lemma float_filled_value i j :
  i < length t0 → j < length t1 →
  mget (Float64.st_C st) (S i) (S j) =
    PrimFloat.add (eucl_dist (t0 !!! i) (t1 !!! j))
      ([mget (Float64.st_C st) (S i) j; mget (Float64.st_C st) i j;
        mget (Float64.st_C st) i (S j)]
         !!! Float64.argmin [mget (Float64.st_C st) (S i) j; mget (Float64.st_C st) i j;
                             mget (Float64.st_C st) i (S j)]).
Proof.
  intros Hi Hj. destruct Hfilled as (_ & _ & _ & Hcells).
  destruct (Hcells (S i) (S j)) as [HC _]; [lia..|].
  unfold Float64.candidates in HC.
  by rewrite !Nat.sub_succ, !Nat.sub_0_r in HC.
Qed.

Lemma float_filled_backptr i j :
  i < length t0 → j < length t1 →
  mget (Float64.st_W st) i j =
    backptr_of (S i) (S j)
      (Float64.argmin [mget (Float64.st_C st) (S i) j; mget (Float64.st_C st) i j;
                       mget (Float64.st_C st) i (S j)]).
Proof.
  intros Hi Hj. destruct Hfilled as (_ & _ & _ & Hcells).
  destruct (Hcells (S i) (S j)) as [_ HW]; [lia..|].
  unfold Float64.candidates in HW.
  by rewrite !Nat.sub_succ, !Nat.sub_0_r in HW.
Qed.

(** The backpointers are unit steps back as soon as the first column,
    its last cell apart, holds no [+inf]. *)
Lemma float_filled_wf_backptrs :
  (∀ i, S i < length t0 → mget (Float64.st_C st) (S i) 1 ≠ infinity) →
  wf_backptrs (length t0) (length t1) (Float64.st_W st).
Proof.
  intros Hcol1.
  destruct float_filled_boundary as (H00 & Hcol & Hrow).
  split; [by destruct Hfilled as (_ & ? & _)|].
  intros i j Hi Hj. rewrite float_filled_backptr by done.
  case_decide as H0; [by destruct H0 as [-> ->]|].
  destruct i as [|i], j as [|j]; [tauto|..].
  - rewrite !Hrow by lia. rewrite float_argmin3_row. exists 0, j. split.
    + unfold backptr_of; simpl. f_equal. f_equal; lia.
    + unfold unit_step_back. lia.
  - rewrite !Hcol by lia. rewrite float_argmin3_col by (apply Hcol1; lia).
    exists i, 0. split.
    + unfold backptr_of; simpl. f_equal. f_equal; lia.
    + unfold unit_step_back. lia.
  - pose proof (float_argmin3_lt (mget (Float64.st_C st) (S (S i)) (S j))
                  (mget (Float64.st_C st) (S i) (S j))
                  (mget (Float64.st_C st) (S i) (S (S j)))) as Hk.
    destruct (Float64.argmin _) as [|[|[|k]]]; [..|lia].
    + exists (S i), j. split; [|unfold unit_step_back; lia].
      unfold backptr_of; simpl. f_equal. f_equal; lia.
    + exists i, j. split; [|unfold unit_step_back; lia].
      unfold backptr_of; simpl. f_equal. f_equal; lia.
    + exists i, (S j). split; [|unfold unit_step_back; lia].
      unfold backptr_of; simpl. f_equal. f_equal; lia.
Qed.

End FloatFilled.

(** ** The loops of [s_dtw] on floats *)

Section FloatSphericalEngine.
Variable great_circle_distance : float → float → float → float → float.
Variables t0 t1 : list (float * float).

Local Abbreviation n0 := (length t0).
Local Abbreviation n1 := (length t1).
Local Abbreviation s_filled_at := (Float64.s_filled_to great_circle_distance t0 t1).

Lemma float_s_dtw_init_filled : s_filled_at 1 1 (Float64.s_dtw_init t0 t1).
Proof.
  unfold Float64.s_filled_to, Float64.s_dtw_init. split_and!.
  - apply float_init_shape.
  - apply float_init_boundary.
  - intros a b Ha Hb. lia.
Qed.

Lemma float_s_dtw_cell_filled C i j :
  1 ≤ i ≤ n0 → 1 ≤ j ≤ n1 →
  s_filled_at i j C →
  s_filled_at i (S j) (Float64.s_dtw_cell great_circle_distance t0 t1 i j C).
Proof.
  intros Hi Hj (HC & (H00 & Hcol & Hrow) & Hcells).
  unfold Float64.s_filled_to, Float64.s_dtw_cell. split_and!.
  - by apply mset_shape.
  - unfold Float64.boundary. split_and!.
    + rewrite mget_mset_ne by (intros [= ? ?]; lia). done.
    + intros a Ha. rewrite mget_mset_ne by (intros [= ? ?]; lia). by apply Hcol.
    + intros b Hb. rewrite mget_mset_ne by (intros [= ? ?]; lia). by apply Hrow.
  - intros a b Ha Hb Hab. unfold Float64.s_cell_ok.
    rewrite (mget_mset_ne _ i j a (b - 1)) by (intros [= ? ?]; lia).
    rewrite (mget_mset_ne _ i j (a - 1) (b - 1)) by (intros [= ? ?]; lia).
    rewrite (mget_mset_ne _ i j (a - 1) b) by (intros [= ? ?]; lia).
    destruct (decide ((a, b) = (i, j))) as [[= -> ->]|Hne].
    + by rewrite (mget_mset_eq (n0 + 1) (n1 + 1)) by (done || lia).
    + rewrite mget_mset_ne by congruence.
      apply Hcells; [done..|]. destruct Hab as [?|[-> ?]]; [lia|].
      right. split; [done|]. destruct (decide (b = j)); [congruence|lia].
Qed.

Lemma float_s_dtw_row_filled C i :
  1 ≤ i ≤ n0 → s_filled_at i 1 C →
  s_filled_at (S i) 1 (Float64.s_dtw_row great_circle_distance t0 t1 i C).
Proof.
  intros Hi HC. unfold Float64.s_dtw_row.
  assert (Hk : ∀ k, k ≤ n1 →
    s_filled_at i (S k)
      (foldl (λ C j, Float64.s_dtw_cell great_circle_distance t0 t1 i j C) C (seq 1 k))).
  { induction k as [|k IH]; intros Hle; [done|].
    rewrite seq_S, foldl_app. simpl. apply float_s_dtw_cell_filled; [lia..|].
    apply IH. lia. }
  destruct (Hk n1) as (Hshape & Hb & Hcells); [done|].
  split_and!; try done.
  intros a b Ha Hb' Hab. apply Hcells; [done..|]. lia.
Qed.

Lemma float_s_dtw_loop_filled :
  s_filled_at (S n0) 1 (Float64.s_dtw_loop great_circle_distance t0 t1).
Proof.
  unfold Float64.s_dtw_loop.
  assert (Hk : ∀ k, k ≤ n0 →
    s_filled_at (S k) 1
      (foldl (λ C i, Float64.s_dtw_row great_circle_distance t0 t1 i C)
             (Float64.s_dtw_init t0 t1) (seq 1 k))).
  { induction k as [|k IH]; intros Hle; [apply float_s_dtw_init_filled|].
    rewrite seq_S, foldl_app. simpl. apply float_s_dtw_row_filled; [lia|].
    apply IH. lia. }
  by apply Hk.
Qed.

End FloatSphericalEngine.

(** ** The builtin [min] on three floats *)

Lemma float_py_min3_cases a b c :
  Float64.py_min3 a b c = a ∨ Float64.py_min3 a b c = b ∨ Float64.py_min3 a b c = c.
Proof. unfold Float64.py_min3. repeat case_match; auto. Qed.

Lemma float_min_step m x :
  PrimFloat.is_finite m = true ∨ m = infinity →
  PrimFloat.is_finite x = true ∨ x = infinity →
  let m' := if (x <? m)%float then x else m in
  (PrimFloat.is_finite m' = true ∨ m' = infinity) ∧
  (PrimFloat.is_finite m = true ∨ PrimFloat.is_finite x = true →
   PrimFloat.is_finite m' = true).
Proof.
  intros [Hm| ->] [Hx| ->]; cbv zeta.
  - destruct (_ <? _)%float; auto.
  - rewrite float_ltb_inf_l. auto.
  - rewrite float_ltb_inf_r by done. auto.
  - rewrite float_ltb_inf_l. split; [auto|]. intros [H|H]; by vm_compute in H.
Qed.

Lemma float_py_min3_finite a b c :
  PrimFloat.is_finite a = true ∨ a = infinity →
  PrimFloat.is_finite b = true ∨ b = infinity →
  PrimFloat.is_finite c = true ∨ c = infinity →
  PrimFloat.is_finite a = true ∨ PrimFloat.is_finite b = true ∨
    PrimFloat.is_finite c = true →
  PrimFloat.is_finite (Float64.py_min3 a b c) = true.
Proof.
  intros Ha Hb Hc Hsome. unfold Float64.py_min3.
  destruct (float_min_step a b Ha Hb) as [Hm Hm'].
  destruct (float_min_step _ c Hm Hc) as [_ Hfin].
  apply Hfin. tauto.
Qed.

(** ** Finite cells when no sum overflows *)

Lemma float_argmin3_elem a b c :
  [a; b; c] !!! Float64.argmin [a; b; c] ∈ [a; b; c].
Proof.
  pose proof (float_argmin3_lt a b c) as Hk.
  destruct (Float64.argmin [a; b; c]) as [|[|[|k]]]; simpl; [repeat constructor..|lia].
Qed.

Lemma float_filled_finite eucl_dist (t0 t1 : list (float * float)) st :
  Float64.filled eucl_dist t0 t1 st →
  Float64.no_overflow (λ i j, eucl_dist (t0 !!! i) (t1 !!! j))
    (length t0) (length t1) (Float64.st_C st) →
  ∀ i j, i < length t0 → j < length t1 →
    PrimFloat.is_finite (mget (Float64.st_C st) (S i) (S j)) = true.
Proof.
  intros Hfilled Hno.
  destruct (float_filled_boundary _ _ _ _ Hfilled) as (H00 & Hcol & Hrow).
  induction i as [|i IHi]; intros j; induction j as [|j IHj]; intros Hi Hj;
    rewrite (float_filled_value _ _ _ _ Hfilled) by done;
    (apply Hno; [done|done|apply float_argmin3_elem|]);
    apply float_argmin3_finite.
  - rewrite Hcol by lia. by right.
  - rewrite H00. by left.
  - rewrite Hrow by lia. by right.
  - rewrite H00. right. by left.
  - left. apply IHj; lia.
  - rewrite Hrow by lia. by right.
  - rewrite Hrow by lia. by right.
  - left. apply IHj; lia.
  - rewrite Hcol by lia. by right.
  - rewrite Hcol by lia. by right.
  - left. apply IHi; lia.
  - right. right. apply IHi; lia.
  - left. apply IHj; lia.
  - left. apply IHi; lia.
  - left. apply IHi; lia.
  - left. apply IHj; lia.
Qed.

Lemma float_s_filled_finite great_circle_distance (t0 t1 : list (float * float)) C :
  Float64.s_filled_to great_circle_distance t0 t1 (S (length t0)) 1 C →
  Float64.no_overflow
    (λ i j, great_circle_distance (t0 !!! i).1 (t0 !!! i).2 (t1 !!! j).1 (t1 !!! j).2)
    (length t0) (length t1) C →
  ∀ i j, i < length t0 → j < length t1 →
    PrimFloat.is_finite (mget C (S i) (S j)) = true.
Proof.
  intros (_ & (H00 & Hcol & Hrow) & Hcells) Hno.
  assert (∀ i j, i < length t0 → j < length t1 →
            mget C (S i) (S j) =
              PrimFloat.add
                (great_circle_distance (t0 !!! i).1 (t0 !!! i).2 (t1 !!! j).1 (t1 !!! j).2)
                (Float64.py_min3 (mget C (S i) j) (mget C i j) (mget C i (S j)))) as Hval.
  { intros i j Hi Hj. pose proof (Hcells (S i) (S j)) as Hcell.
    unfold Float64.s_cell_ok in Hcell.
    rewrite !Nat.sub_succ, !Nat.sub_0_r in Hcell. apply Hcell; lia. }
  assert (∀ a b c, Float64.py_min3 a b c ∈ [a; b; c]) as Helem.
  { intros a b c.
    destruct (float_py_min3_cases a b c) as [-> | [-> | ->]]; repeat constructor. }
  induction i as [|i IHi]; intros j; induction j as [|j IHj]; intros Hi Hj;
    rewrite Hval by done;
    (apply (Hno _ _ _ Hi Hj); [apply Helem|]);
    apply float_py_min3_finite.
  - rewrite Hcol by lia. by right.
  - rewrite H00. by left.
  - rewrite Hrow by lia. by right.
  - rewrite H00. right. by left.
  - left. apply IHj; lia.
  - rewrite Hrow by lia. by right.
  - rewrite Hrow by lia. by right.
  - left. apply IHj; lia.
  - rewrite Hcol by lia. by right.
  - rewrite Hcol by lia. by right.
  - left. apply IHi; lia.
  - right. right. apply IHi; lia.
  - left. apply IHj; lia.
  - left. apply IHi; lia.
  - left. apply IHi; lia.
  - left. apply IHj; lia.
Qed.

(** ** The returned matrices of the float engine *)

Lemma float_interior_get (C : matrix float) n m i j :
  has_shape (n + 1) (m + 1) C → i < n → j < m →
  mget (Float64.interior C) i j = mget C (S i) (S j).
Proof.
  intros HC Hi Hj.
  destruct (mget_lookup (n + 1) (m + 1) C (S i) (S j) HC) as (row & Hrow & Hcell);
    [lia..|].
  unfold mget at 1. unfold Float64.interior.
  erewrite (list_lookup_total_correct _ i (drop 1 row)).
  - apply list_lookup_total_correct. by rewrite lookup_drop.
  - rewrite list_lookup_fmap, lookup_drop. change (1 + i) with (S i). by rewrite Hrow.
Qed.

Lemma float_e_dtw_returned_get eucl_dist (t0 t1 : list (float * float)) i j :
  i < length t0 → j < length t1 →
  mget (Float64.e_dtw eucl_dist t0 t1).1.2 i j =
    mget (Float64.st_C (Float64.e_dtw_loop eucl_dist t0 t1)) (S i) (S j).
Proof.
  intros Hi Hj. destruct (float_e_dtw_loop_filled eucl_dist t0 t1) as (HC & _).
  by apply (float_interior_get _ (length t0) (length t1)).
Qed.

(** The backpointer matrix is well formed when the first column of the
    returned cost matrix, its last cell apart, holds no [+inf]. *)
Lemma float_e_dtw_wf_backptrs eucl_dist (t0 t1 : list (float * float)) :
  t1 ≠ [] →
  (∀ i, S i < length t0 → mget (Float64.e_dtw eucl_dist t0 t1).1.2 i 0 ≠ infinity) →
  wf_backptrs (length t0) (length t1) (Float64.e_dtw eucl_dist t0 t1).2.
Proof.
  intros H1 Hcol1.
  assert (0 < length t1) as Hn1 by (destruct t1; simpl; [done|lia]).
  apply (float_filled_wf_backptrs eucl_dist t0 t1 _ (float_e_dtw_loop_filled _ _ _)).
  intros i Hi. rewrite <-float_e_dtw_returned_get by lia. by apply Hcol1.
Qed.

(** ** The path of [e_dtw] on floats *)







(** ** The boundary policy and the interior on floats *)

(** C7, as stated, fails on floats in its second half: two points at the
    origin against the point [(huge, 0)] are at the finite, non-negative
    distance [huge] from it, and the interior cell
    [C[2][1] = huge + huge] overflows to [+inf], in [e_dtw] and in
    [s_dtw]. *)
Lemma overflow_leaves_infinite_interior_cell :
  let t0 := [(0, 0); (0, 0)]%float in
  let t1 := [(Float64.huge, 0%float)] in
  PrimFloat.is_finite (Float64.taxicab (0, 0)%float (Float64.huge, 0%float)) = true ∧
  (0 <=? Float64.taxicab (0, 0)%float (Float64.huge, 0%float))%float = true ∧
  mget (Float64.st_C (Float64.e_dtw_loop Float64.taxicab t0 t1)) 2 1 = infinity ∧
  mget (Float64.s_dtw_loop Float64.coords t0 t1) 2 1 = infinity ∧
  PrimFloat.is_finite infinity = false.
Proof. split_and!; by vm_compute. Qed.

(** C7, amended. In both engines the matrix before the double loop has
    [C[0][0] = 0], [C[i][0] = +inf] for [i] in [1..n0] and
    [C[0][j] = +inf] for [j] in [1..n1]; and after the loops every
    interior cell [C[i][j]] is a finite number provided no sum of the
    run overflows, that is, at every cell the point distance added to a
    finite neighbour gives a finite number. *)
Theorem boundary_and_interior_without_overflow
    (eucl_dist : float * float → float * float → float)
    (great_circle_distance : float → float → float → float → float)
    (t0 t1 : list (float * float)) (i j : nat) :
  1 ≤ i ≤ length t0 → 1 ≤ j ≤ length t1 →
  let Ce := Float64.st_C (Float64.e_dtw_init t0 t1) in
  let Cs := Float64.s_dtw_init t0 t1 in
  let Ce' := Float64.st_C (Float64.e_dtw_loop eucl_dist t0 t1) in
  let Cs' := Float64.s_dtw_loop great_circle_distance t0 t1 in
  (mget Ce 0 0 = 0%float ∧ mget Ce i 0 = infinity ∧ mget Ce 0 j = infinity) ∧
  (mget Cs 0 0 = 0%float ∧ mget Cs i 0 = infinity ∧ mget Cs 0 j = infinity) ∧
  (Float64.no_overflow (λ i j, eucl_dist (t0 !!! i) (t1 !!! j))
     (length t0) (length t1) Ce' →
   PrimFloat.is_finite (mget Ce' i j) = true) ∧
  (Float64.no_overflow
     (λ i j, great_circle_distance (t0 !!! i).1 (t0 !!! i).2 (t1 !!! j).1 (t1 !!! j).2)
     (length t0) (length t1) Cs' →
   PrimFloat.is_finite (mget Cs' i j) = true).
Proof.
  intros Hi Hj Ce Cs Ce' Cs'.
  assert (mget Cs 0 0 = 0%float ∧ mget Cs i 0 = infinity ∧ mget Cs 0 j = infinity)
    as Hinit.
  { destruct (float_init_boundary (length t0) (length t1)) as (H00 & Hcol & Hrow).
    split_and!; [done|by apply Hcol|by apply Hrow]. }
  destruct i as [|i]; [lia|]. destruct j as [|j]; [lia|].
  split_and!; [apply Hinit..| |].
  - intros Hno.
    apply (float_filled_finite eucl_dist t0 t1 _
             (float_e_dtw_loop_filled eucl_dist t0 t1) Hno); lia.
  - intros Hno.
    apply (float_s_filled_finite great_circle_distance t0 t1 _
             (float_s_dtw_loop_filled great_circle_distance t0 t1) Hno); lia.
Qed.

Lemma boundary_and_interior_without_overflow_witness :
  let t0 := [(0, 0); (1, 0)]%float in
  let t1 := [(0, 0); (0, 1)]%float in
  let Ce := Float64.st_C (Float64.e_dtw_init t0 t1) in
  let Cs := Float64.s_dtw_init t0 t1 in
  (mget Ce 0 0 = 0%float ∧ mget Ce 2 0 = infinity ∧ mget Ce 0 2 = infinity) ∧
  (mget Cs 0 0 = 0%float ∧ mget Cs 2 0 = infinity ∧ mget Cs 0 2 = infinity) ∧
  PrimFloat.is_finite
    (mget (Float64.st_C (Float64.e_dtw_loop Float64.taxicab t0 t1)) 2 2) = true ∧
  PrimFloat.is_finite (mget (Float64.s_dtw_loop Float64.coords t0 t1) 2 2) = true.
Proof.
  pose proof (boundary_and_interior_without_overflow Float64.taxicab Float64.coords
                [(0, 0); (1, 0)]%float [(0, 0); (0, 1)]%float 2 2
                ltac:(simpl; lia) ltac:(simpl; lia)) as (He & Hs & Hfe & Hfs).
  split; [exact He|]. split; [exact Hs|]. split.
  - apply Hfe. intros [|[|a]] [|[|b]] m Ha Hb Hm Hfin; simpl in Ha, Hb; try lia;
      repeat (apply elem_of_cons in Hm as [-> | Hm];
              [first [by vm_compute | by vm_compute in Hfin]|]);
      by apply elem_of_nil in Hm.
  - apply Hfs. intros [|[|a]] [|[|b]] m Ha Hb Hm Hfin; simpl in Ha, Hb; try lia;
      repeat (apply elem_of_cons in Hm as [-> | Hm];
              [first [by vm_compute | by vm_compute in Hfin]|]);
      by apply elem_of_nil in Hm.
Defined.

(** ** The cost along the backpointers, on floats *)

(** On a well-formed backpointer matrix the reconstruction returns the
    reversal of the chain of backpointers from the last cell, a warping
    path. *)
Lemma wf_backptrs_path n0 n1 (W : matrix backptr) fuel :
  wf_backptrs n0 n1 W → 0 < n0 → 0 < n1 → n0 + n1 ≤ S fuel →
  ∃ seg,
    e_extract_dtw_warping_path fuel W = Returns (reverse seg) ∧
    follows W (n0 - 1) (n1 - 1) seg ∧
    warping_path (Z.of_nat n0 - 1) (Z.of_nat n1 - 1) (reverse seg).
Proof.
  intros HW Hn0 Hn1 Hfuel.
  destruct (extract_wf _ _ _ HW fuel Hn0 Hn1 Hfuel)
    as (path & Hret & Hhead & Hlast & Hsteps & _).
  destruct (walk_follows _ _ _ (wf_backptrs_decreasing _ _ _ HW) fuel
              (n0 - 1) (n1 - 1) []) as (seg & Hwalk & Hseg & _); [lia..|].
  assert (path = reverse seg) as ->.
  { unfold e_extract_dtw_warping_path in Hret.
    destruct (mget_lookup n0 n1 _ 0 0 (proj1 HW)) as (row0 & Hrow0 & _);
      [done..|].
    change 0%Z with (Z.of_nat 0) in Hret. rewrite py_index_nat, Hrow0 in Hret.
    rewrite (proj1 (proj1 HW)), (proj2 (proj1 HW) _ _ Hrow0) in Hret.
    replace (Z.of_nat n0 - 1)%Z with (Z.of_nat (n0 - 1)) in Hret by lia.
    replace (Z.of_nat n1 - 1)%Z with (Z.of_nat (n1 - 1)) in Hret by lia.
    rewrite Hwalk in Hret. by injection Hret as <-. }
  exists seg. split_and!; done.
Qed.

Lemma float_path_cost_snoc eucl_dist (t0 t1 : list (float * float)) path a b :
  Float64.path_cost eucl_dist t0 t1 (path ++ [(a, b)]) =
    PrimFloat.add (eucl_dist (t0 !!! Z.to_nat a) (t1 !!! Z.to_nat b))
                  (Float64.path_cost eucl_dist t0 t1 path).
Proof. unfold Float64.path_cost. by rewrite foldl_app. Qed.

Section FloatAttained.
Variable eucl_dist : float * float → float * float → float.
Variables t0 t1 : list (float * float).
Variable st : Float64.dtw_state.
Hypothesis Hfilled : Float64.filled eucl_dist t0 t1 st.

(** The first cell holds the distance of the first two points added to
    the [0.0] of the corner. *)
Lemma float_filled_first_cell :
  0 < length t0 → 0 < length t1 →
  mget (Float64.st_C st) 1 1 =
    PrimFloat.add (eucl_dist (t0 !!! 0) (t1 !!! 0)) 0%float.
Proof.
  intros H0 H1.
  destruct (float_filled_boundary _ _ _ _ Hfilled) as (H00 & Hcol & Hrow).
  rewrite (float_filled_value _ _ _ _ Hfilled) by done.
  by rewrite H00, Hcol, Hrow by lia.
Qed.

(** Off the origin, a cell whose backpointer names a cell holds the
    distance of its two points added to what that cell holds. *)
Lemma float_filled_backptr_cost i j i' j' :
  i < length t0 → j < length t1 → ¬ (i = 0 ∧ j = 0) →
  mget (Float64.st_W st) i j = Some (Z.of_nat i', Z.of_nat j') →
  i' ≤ i ∧ j' ≤ j ∧
  mget (Float64.st_C st) (S i) (S j) =
    PrimFloat.add (eucl_dist (t0 !!! i) (t1 !!! j))
                  (mget (Float64.st_C st) (S i') (S j')).
Proof.
  intros Hi Hj Hne.
  rewrite (float_filled_backptr eucl_dist t0 t1 st Hfilled) by done.
  rewrite (float_filled_value eucl_dist t0 t1 st Hfilled) by done.
  pose proof (float_argmin3_lt (mget (Float64.st_C st) (S i) j) (mget (Float64.st_C st) i j)
                (mget (Float64.st_C st) i (S j))) as Hk.
  unfold backptr_of.
  destruct (bool_decide (S i = 1) && bool_decide (S j = 1)) eqn:Horigin.
  { apply andb_prop in Horigin as [Hi0%bool_decide_eq_true Hj0%bool_decide_eq_true]. lia. }
  destruct (Float64.argmin _) as [|[|[|k]]]; [..|lia]; simpl; intros [= Hi' Hj'];
    (split; [lia|]); (split; [lia|]).
  - by replace (S i') with (S i) by lia; replace (S j') with j by lia.
  - by replace (S i') with i by lia; replace (S j') with j by lia.
  - by replace (S i') with i by lia; replace (S j') with (S j) by lia.
Qed.

(** The chain of backpointers from a cell, read from the origin, sums to
    what the cell holds. *)
Lemma float_follows_cost i j seg :
  follows (Float64.st_W st) i j seg → i < length t0 → j < length t1 →
  mget (Float64.st_C st) (S i) (S j) = Float64.path_cost eucl_dist t0 t1 (reverse seg).
Proof.
  induction 1 as [|i j i' j' seg Hne Hcell Hseg IH]; intros Hi Hj.
  - by rewrite float_filled_first_cell by done.
  - destruct (float_filled_backptr_cost i j i' j' Hi Hj Hne Hcell) as (Hi' & Hj' & ->).
    rewrite reverse_cons, float_path_cost_snoc, !Nat2Z.id.
    by rewrite IH by lia.
Qed.

End FloatAttained.

(** With one point in [t0] the backpointer matrix has one row, and is
    well formed whatever the distances are. *)
Lemma float_e_dtw_wf_backptrs_row eucl_dist (p : float * float)
    (t1 : list (float * float)) :
  t1 ≠ [] → wf_backptrs 1 (length t1) (Float64.e_dtw eucl_dist [p] t1).2.
Proof.
  intros H1. apply (float_e_dtw_wf_backptrs eucl_dist [p] t1 H1).
  intros i Hi. simpl in Hi. lia.
Qed.

Lemma float_path_cost_row dist (p : float * float) (l : list (float * float)) : ∀ pre acc,
  foldl (λ acc ab,
           PrimFloat.add (dist ([p] !!! Z.to_nat ab.1) ((pre ++ l) !!! Z.to_nat ab.2)) acc)
        acc ((λ k, (0%Z, Z.of_nat k)) <$> seq (length pre) (length l)) =
    foldl (λ acc q, PrimFloat.add (dist p q) acc) acc l.
Proof.
  induction l as [|q l IH]; intros pre acc; [done|].
  simpl. rewrite Nat2Z.id.
  rewrite list_lookup_total_middle by done.
  specialize (IH (pre ++ [q])). rewrite <-app_assoc, length_app in IH. simpl in IH.
  rewrite Nat.add_1_r in IH. apply IH.
Qed.

(** ** The returned path and the returned scalar, on floats *)

(** Sums are rounded: one point against the points at [0.1], [0.2] and
    [0.3] from it gives [0.6000000000000001], not [0.6]. *)
Lemma float_sums_are_rounded :
  (Float64.e_dtw Float64.taxicab [(0, 0)%float]
     [(0x1.999999999999ap-4, 0); (0x1.999999999999ap-3, 0);
      (0x1.3333333333333p-2, 0)]%float).1.1 = 0x1.3333333333334p-1%float.
Proof. by vm_compute. Qed.

(** X4. For non-empty trajectories such that the first column of the
    cost matrix, its last cell apart, holds no [+inf], the reconstructed
    path is a warping path from [(0,0)] to [(n0-1, n1-1)] and the scalar
    [e_dtw] returned is the float sum of the point distances along it,
    added one by one from [0.0] in the order of the path. *)
Theorem returned_scalar_is_sum_along_path
    (eucl_dist : float * float → float * float → float)
    (t0 t1 : list (float * float)) (fuel : nat) :
  t0 ≠ [] → t1 ≠ [] → length t0 + length t1 ≤ S fuel →
  (∀ i, S i < length t0 → mget (Float64.e_dtw eucl_dist t0 t1).1.2 i 0 ≠ infinity) →
  ∃ path,
    e_extract_dtw_warping_path fuel (Float64.e_dtw eucl_dist t0 t1).2 = Returns path ∧
    warping_path (Z.of_nat (length t0) - 1) (Z.of_nat (length t1) - 1) path ∧
    (Float64.e_dtw eucl_dist t0 t1).1.1 = Float64.path_cost eucl_dist t0 t1 path.
Proof.
  intros H0 H1 Hfuel Hcol1.
  assert (0 < length t0) as Hn0 by (destruct t0; simpl; [done|lia]).
  assert (0 < length t1) as Hn1 by (destruct t1; simpl; [done|lia]).
  destruct (wf_backptrs_path _ _ _ fuel
              (float_e_dtw_wf_backptrs eucl_dist t0 t1 H1 Hcol1) Hn0 Hn1 Hfuel)
    as (seg & Hret & Hseg & Hpath).
  exists (reverse seg). split_and!; [done..|].
  rewrite <-(float_follows_cost _ _ _ _ (float_e_dtw_loop_filled eucl_dist t0 t1) _ _ _ Hseg)
    by lia.
  unfold Float64.e_dtw; simpl.
  by replace (S (length t0 - 1)) with (length t0) by lia;
     replace (S (length t1 - 1)) with (length t1) by lia.
Qed.

Lemma returned_scalar_is_sum_along_path_witness :
  let t0 := [(0, 0); (1, 0); (2, 0)]%float in
  let t1 := [(0, 0); (0, 1); (0, 2)]%float in
  ∃ path,
    e_extract_dtw_warping_path 5 (Float64.e_dtw Float64.taxicab t0 t1).2 = Returns path ∧
    warping_path 2 2 path ∧
    (Float64.e_dtw Float64.taxicab t0 t1).1.1 =
      Float64.path_cost Float64.taxicab t0 t1 path.
Proof.
  apply (returned_scalar_is_sum_along_path Float64.taxicab
           [(0, 0); (1, 0); (2, 0)]%float [(0, 0); (0, 1); (0, 2)]%float 5);
    [done|done|simpl; lia|].
  intros [|[|i]] Hi; [apply float_is_finite_not_inf; by vm_compute..|simpl in Hi; lia].
Defined.

(** X5. For trajectories such that the first column of the cost matrix,
    its last cell apart, holds no [+inf]: off the first cell, the
    backpointer of a cell names a cell of the matrix, and the cost of the
    cell is the distance of its two points added to the cost of the cell
    named. *)
Theorem backpointer_names_added_cost_without_overflow
    (eucl_dist : float * float → float * float → float)
    (t0 t1 : list (float * float)) (i j : nat) :
  i < length t0 → j < length t1 → ¬ (i = 0 ∧ j = 0) →
  (∀ i, S i < length t0 → mget (Float64.e_dtw eucl_dist t0 t1).1.2 i 0 ≠ infinity) →
  ∃ i' j' : nat,
    mget (Float64.e_dtw eucl_dist t0 t1).2 i j = Some (Z.of_nat i', Z.of_nat j') ∧
    i' < length t0 ∧ j' < length t1 ∧
    mget (Float64.e_dtw eucl_dist t0 t1).1.2 i j =
      PrimFloat.add (eucl_dist (t0 !!! i) (t1 !!! j))
                    (mget (Float64.e_dtw eucl_dist t0 t1).1.2 i' j').
Proof.
  intros Hi Hj Hne Hcol1.
  assert (t1 ≠ []) as H1 by (intros ->; simpl in Hj; lia).
  pose proof (float_e_dtw_loop_filled eucl_dist t0 t1) as Hfilled.
  destruct (float_e_dtw_wf_backptrs eucl_dist t0 t1 H1 Hcol1) as [_ Hcells].
  specialize (Hcells i j Hi Hj). case_decide; [done|].
  destruct Hcells as (i' & j' & Hcell & Hstep). unfold unit_step_back in Hstep.
  exists i', j'. split_and!; [done|lia..|].
  rewrite !float_e_dtw_returned_get by lia.
  by apply (float_filled_backptr_cost _ _ _ _ Hfilled).
Qed.

Lemma backpointer_names_added_cost_without_overflow_witness :
  let t0 := [(0, 0); (1, 0); (2, 0)]%float in
  let t1 := [(0, 0); (0, 1); (0, 2)]%float in
  ∃ i' j' : nat,
    mget (Float64.e_dtw Float64.taxicab t0 t1).2 2 1 = Some (Z.of_nat i', Z.of_nat j') ∧
    i' < 3 ∧ j' < 3 ∧
    mget (Float64.e_dtw Float64.taxicab t0 t1).1.2 2 1 =
      PrimFloat.add (Float64.taxicab (t0 !!! 2) (t1 !!! 1))
                    (mget (Float64.e_dtw Float64.taxicab t0 t1).1.2 i' j').
Proof.
  apply (backpointer_names_added_cost_without_overflow Float64.taxicab
           [(0, 0); (1, 0); (2, 0)]%float [(0, 0); (0, 1); (0, 2)]%float 2 1);
    [simpl; lia|simpl; lia|lia|].
  intros [|[|i]] Hi; [apply float_is_finite_not_inf; by vm_compute..|simpl in Hi; lia].
Defined.

(** X9. For non-empty trajectories such that the first column of the
    cost matrix, its last cell apart, holds no [+inf], the reconstructed
    path pairs every point of [t0] and every point of [t1] at least
    once, holds in-range indices only, and has between [max n0 n1] and
    [n0 + n1 - 1] entries. *)
Theorem returned_path_covers_trajectories_without_overflow
    (eucl_dist : float * float → float * float → float)
    (t0 t1 : list (float * float)) (fuel : nat) :
  t0 ≠ [] → t1 ≠ [] → length t0 + length t1 ≤ S fuel →
  (∀ i, S i < length t0 → mget (Float64.e_dtw eucl_dist t0 t1).1.2 i 0 ≠ infinity) →
  ∃ path,
    e_extract_dtw_warping_path fuel (Float64.e_dtw eucl_dist t0 t1).2 = Returns path ∧
    (∀ a b, (a, b) ∈ path →
       (0 ≤ a < Z.of_nat (length t0))%Z ∧ (0 ≤ b < Z.of_nat (length t1))%Z) ∧
    (∀ i, i < length t0 → ∃ b, (Z.of_nat i, b) ∈ path) ∧
    (∀ j, j < length t1 → ∃ a, (a, Z.of_nat j) ∈ path) ∧
    length t0 `max` length t1 ≤ length path ≤ length t0 + length t1 - 1.
Proof.
  intros H0 H1 Hfuel Hcol1.
  assert (0 < length t0) as Hn0 by (destruct t0; simpl; [done|lia]).
  assert (0 < length t1) as Hn1 by (destruct t1; simpl; [done|lia]).
  destruct (wf_backptrs_path _ _ _ fuel
              (float_e_dtw_wf_backptrs eucl_dist t0 t1 H1 Hcol1) Hn0 Hn1 Hfuel)
    as (seg & Hret & _ & Hpath).
  exists (reverse seg). split; [done|].
  destruct (warping_path_shape _ _ _ Hpath)
    as (Hnonneg & Hin & Hrows & Hcols & Hla & Hlb & Hlen).
  split_and!.
  - intros a b Hab. apply Hin in Hab. lia.
  - intros i Hi. apply Hrows. lia.
  - intros j Hj. apply Hcols. lia.
  - lia.
  - lia.
Qed.

Lemma returned_path_covers_trajectories_without_overflow_witness :
  let t0 := [(0, 0); (1, 0); (2, 0)]%float in
  let t1 := [(0, 0); (0, 1)]%float in
  ∃ path,
    e_extract_dtw_warping_path 4 (Float64.e_dtw Float64.taxicab t0 t1).2 = Returns path ∧
    (∀ a b, (a, b) ∈ path → (0 ≤ a < 3)%Z ∧ (0 ≤ b < 2)%Z) ∧
    (∀ i, i < 3 → ∃ b, (Z.of_nat i, b) ∈ path) ∧
    (∀ j, j < 2 → ∃ a, (a, Z.of_nat j) ∈ path) ∧
    3 ≤ length path ≤ 4.
Proof.
  apply (returned_path_covers_trajectories_without_overflow Float64.taxicab
           [(0, 0); (1, 0); (2, 0)]%float [(0, 0); (0, 1)]%float 4);
    [done|done|simpl; lia|].
  intros [|[|i]] Hi; [apply float_is_finite_not_inf; by vm_compute..|simpl in Hi; lia].
Defined.

(** X13. For a trajectory of one point [p] against a non-empty
    trajectory [t1], whatever the distances are, the reconstructed path
    pairs [p] with each point of [t1] in turn,
    [(0,0), (0,1), ..., (0,n1-1)], and [e_dtw] returns the float sum of
    the distances of [p] to the points of [t1], added one by one from
    [0.0] in the order of [t1]. *)
Theorem one_point_against_trajectory
    (eucl_dist : float * float → float * float → float)
    (p : float * float) (t1 : list (float * float)) (fuel : nat) :
  t1 ≠ [] → length t1 ≤ fuel →
  e_extract_dtw_warping_path fuel (Float64.e_dtw eucl_dist [p] t1).2 =
    Returns (row_path (length t1)) ∧
  (Float64.e_dtw eucl_dist [p] t1).1.1 =
    foldl (λ acc q, PrimFloat.add (eucl_dist p q) acc) 0%float t1.
Proof.
  intros H1 Hfuel.
  assert (0 < length t1) as Hn1 by (destruct t1; simpl; [done|lia]).
  destruct (wf_backptrs_path 1 (length t1) _ fuel
              (float_e_dtw_wf_backptrs_row eucl_dist p t1 H1))
    as (seg & Hret & Hseg & Hpath); [lia|done|lia|].
  pose proof (warping_path_row _ _ Hpath) as Hrow.
  replace (S (Z.to_nat (Z.of_nat (length t1) - 1))) with (length t1) in Hrow by lia.
  split.
  - by rewrite Hret, Hrow.
  - pose proof (float_follows_cost _ _ _ _ (float_e_dtw_loop_filled eucl_dist [p] t1)
                  _ _ _ Hseg) as Hcost.
    simpl in Hcost. replace (S (length t1 - 1)) with (length t1) in Hcost by lia.
    unfold Float64.e_dtw; simpl. rewrite Hcost by lia.
    rewrite Hrow. apply (float_path_cost_row eucl_dist p t1 []).
Qed.

Lemma one_point_against_trajectory_witness :
  let t1 := [(0, 0); (0, 1); (0, 2)]%float in
  e_extract_dtw_warping_path 3 (Float64.e_dtw Float64.taxicab [(3, 0)%float] t1).2 =
    Returns (row_path 3) ∧
  (Float64.e_dtw Float64.taxicab [(3, 0)%float] t1).1.1 =
    foldl (λ acc q, PrimFloat.add (Float64.taxicab (3, 0)%float q) acc) 0%float t1.
Proof.
  apply (one_point_against_trajectory Float64.taxicab (3, 0)%float
           [(0, 0); (0, 1); (0, 2)]%float 3); [done|simpl; lia].
Defined.
